(** * kafkabp: supervision of Kafka consumers and producers

    A shallow embedding of the Go package [kafkabp]: [config.go],
    [sarama_wrapper.go], [producer.go] and [consumer.go].

    Go values are modelled as follows.
    - an [error] interface value is an [option error] ([None] is [nil]);
    - a pointer that may be [nil] is an [option];
    - an [int64] flag read and written through [sync/atomic] is a [Z];
    - a [sync.WaitGroup] is its counter;
    - an [atomic.Value] is an [option] ([None] until the first [Store]);
    - a call returns, panics, or has not returned by the end of what
      is modelled ([Blocks]: it waits, or it is still running):
      [outcome];
    - every call into a collaborator (the sarama client, the logger, the
      metrics registry) is recorded as an event of a trace, and what the
      collaborator answers is a function of the trace so far. *)

From Stdlib Require Import ZArith List String Bool Lia.
Import ListNotations.

Open Scope string_scope.
Open Scope list_scope.

Set Implicit Arguments.

(** ** Go errors and call outcomes *)

(** The four sentinel errors of [sarama_wrapper.go], and the errors that
    come out of the sarama client. *)
Inductive error : Type :=
| ErrBrokersEmpty
| ErrTopicEmpty
| ErrClientIDEmpty
| ErrOffsetInvalid
| ErrSarama (msg : string).

(** [err.Error()] *)
Definition Error (e : error) : string :=
  match e with
  | ErrBrokersEmpty => "kafkabp: Brokers are empty"
  | ErrTopicEmpty => "kafkabp: Topic is empty"
  | ErrClientIDEmpty => "kafkabp: ClientID is empty"
  | ErrOffsetInvalid => "kafkabp: Offset is invalid"
  | ErrSarama m => m
  end.

Inductive outcome (A : Type) : Type :=
| Returns (a : A)
| Panics (reason : string)
| Blocks.

Arguments Panics {A} reason.
Arguments Blocks {A}.

Definition nil_dereference : string :=
  "runtime error: invalid memory address or nil pointer dereference".

(** ** The parts of sarama the package touches *)

Module sarama.

(** [sarama.OffsetNewest] and [sarama.OffsetOldest]. *)
Definition OffsetNewest : Z := -1.
Definition OffsetOldest : Z := -2.

(** [sarama.WaitForLocal], [sarama.CompressionNone]. *)
Definition WaitForLocal : Z := 1.
Definition CompressionNone : Z := 0.

(** The fields of [sarama.Config] that the package reads or writes. *)
Record Config : Type := {
  ClientID : string;
  Consumer_Return_Errors : bool;
  Consumer_Offsets_Initial : Z;
  Producer_RequiredAcks : Z;
  Producer_Compression : Z;
  Producer_Flush_Frequency : Z   (* nanoseconds *)
}.

Definition set_ClientID (s : string) (c : Config) : Config :=
  {| ClientID := s;
     Consumer_Return_Errors := Consumer_Return_Errors c;
     Consumer_Offsets_Initial := Consumer_Offsets_Initial c;
     Producer_RequiredAcks := Producer_RequiredAcks c;
     Producer_Compression := Producer_Compression c;
     Producer_Flush_Frequency := Producer_Flush_Frequency c |}.

Definition set_Consumer_Return_Errors (b : bool) (c : Config) : Config :=
  {| ClientID := ClientID c;
     Consumer_Return_Errors := b;
     Consumer_Offsets_Initial := Consumer_Offsets_Initial c;
     Producer_RequiredAcks := Producer_RequiredAcks c;
     Producer_Compression := Producer_Compression c;
     Producer_Flush_Frequency := Producer_Flush_Frequency c |}.

Definition set_Consumer_Offsets_Initial (o : Z) (c : Config) : Config :=
  {| ClientID := ClientID c;
     Consumer_Return_Errors := Consumer_Return_Errors c;
     Consumer_Offsets_Initial := o;
     Producer_RequiredAcks := Producer_RequiredAcks c;
     Producer_Compression := Producer_Compression c;
     Producer_Flush_Frequency := Producer_Flush_Frequency c |}.

Definition set_Producer (acks compression flush : Z) (c : Config) : Config :=
  {| ClientID := ClientID c;
     Consumer_Return_Errors := Consumer_Return_Errors c;
     Consumer_Offsets_Initial := Consumer_Offsets_Initial c;
     Producer_RequiredAcks := acks;
     Producer_Compression := compression;
     Producer_Flush_Frequency := flush |}.

(** What [sarama.NewConfig()] returns. *)
Definition NewConfig : Config :=
  {| ClientID := "sarama";
     Consumer_Return_Errors := false;
     Consumer_Offsets_Initial := OffsetNewest;
     Producer_RequiredAcks := WaitForLocal;
     Producer_Compression := CompressionNone;
     Producer_Flush_Frequency := 0 |}.

End sarama.

(** [time.Millisecond], in nanoseconds. *)
Definition Millisecond : Z := 1000000.

(** ** sarama_wrapper.go *)

Definition OffsetOldest : Z := sarama.OffsetOldest.
Definition OffsetNewest : Z := sarama.OffsetNewest.

(** ** config.go *)

Module config_go.

Record ConsumerConfig : Type := {
  Brokers : list string;
  Topic : string;
  ClientID : string;
  Offset : string
}.

Definition with_Offset (o : string) (cfg : ConsumerConfig) : ConsumerConfig :=
  {| Brokers := Brokers cfg; Topic := Topic cfg;
     ClientID := ClientID cfg; Offset := o |}.

(** [ConsumerConfig.NewSaramaConfig]: the pair [(c, err)] is
    [inl c] when [err] is [nil] and [inr err] otherwise. *)
Definition NewSaramaConfig (cfg : ConsumerConfig) : sarama.Config + error :=
  let c := sarama.NewConfig in
  let c := sarama.set_Consumer_Return_Errors true c in
  if Nat.eqb (List.length (Brokers cfg)) 0 then inr ErrBrokersEmpty
  else if String.eqb (Topic cfg) "" then inr ErrTopicEmpty
  else if String.eqb (ClientID cfg) "" then inr ErrClientIDEmpty
  else if String.eqb (Offset cfg) "" then
    (* fallthrough into the "oldest" case *)
    inl (sarama.set_Consumer_Offsets_Initial sarama.OffsetOldest c)
  else if String.eqb (Offset cfg) "oldest" then
    inl (sarama.set_Consumer_Offsets_Initial sarama.OffsetOldest c)
  else if String.eqb (Offset cfg) "newest" then
    inl (sarama.set_Consumer_Offsets_Initial sarama.OffsetNewest c)
  else inr ErrOffsetInvalid.

End config_go.

(** ** producer.go *)

Module producer_go.

(** A [log.Wrapper] is a function value; wrappers are told apart by
    name.  [ErrorWithSentryWrapper] is what
    [log.ErrorWithSentryWrapper()] returns. *)
Inductive Wrapper : Type :=
| ErrorWithSentryWrapper
| CustomWrapper (name : string).

(** [ProducerConfig] (declared in [config.go]).  [Logger] is [None]
    when the field is [nil]. *)
Record ProducerConfig : Type := {
  Brokers : list string;
  Logger : option Wrapper
}.

Definition with_Logger (l : option Wrapper) (cfg : ProducerConfig)
  : ProducerConfig :=
  {| Brokers := Brokers cfg; Logger := l |}.

(** [ProducerConfig.NewSaramaConfig] (in [config.go]). *)
Definition NewSaramaConfig (cfg : ProducerConfig) : sarama.Config + error :=
  let c := sarama.NewConfig in
  inl (sarama.set_Producer sarama.WaitForLocal sarama.CompressionNone
         (100 * Millisecond) c).

Record ProducerMessage : Type := {
  Topic : string;
  Data : list Byte.byte;
  Key : list Byte.byte;
  Timestamp : Z
}.

(** [sarama.ProducerMessage]: [sm_Key] is [None] when left unset. *)
Record SaramaMessage : Type := {
  sm_Topic : string;
  sm_Key : option (list Byte.byte);
  sm_Value : list Byte.byte;
  sm_Timestamp : Z
}.

(** What the producer does to the outside, in order. *)
Inductive event : Type :=
| EvNewAsyncProducer (brokers : list string) (sc : sarama.Config)
                     (err : option error)
| EvGoErrorDrain (logger : option Wrapper)
    (* the goroutine draining [producer.Errors()] has been started;
       [logger] is the value of [cfg.Logger] it reads *)
| EvLog (logger : option Wrapper) (msg : string)
    (* [logger.Log(context.Background(), msg)]; a method of the function
       type [log.Wrapper], which a nil wrapper has too *)
| EvCounterAdd (name : string) (delta : Z)
| EvInput (m : SaramaMessage)
    (* [m] went into the channel [Producer.Input()] *)
| EvProducerClose (err : option error).

Definition trace : Type := list event.

(** A [sarama.AsyncProducer]: what it answers is a function of the
    trace so far. *)
Record AsyncProducer : Type := {
  InputReady : trace -> bool;
    (* can a send on [Input()] proceed at once? *)
  ProducerClose : trace -> option error
}.

(** [sarama.NewAsyncProducer]. *)
Definition Sarama : Type :=
  trace -> list string -> sarama.Config -> AsyncProducer + error.

Definition is_close (e : event) : bool :=
  match e with EvProducerClose _ => true | _ => false end.

Definition is_input (e : event) : bool :=
  match e with EvInput _ => true | _ => false end.

Definition is_log (e : event) : bool :=
  match e with EvLog _ _ => true | _ => false end.

(** The messages that went into the input channel. *)
Definition inputs (t : trace) : list event := filter is_input t.

(** Has [Producer.Close()] run, which closes the input channel? *)
Definition input_closed (t : trace) : bool := existsb is_close t.

Record TopicAsyncProducer : Type := {
  Producer : AsyncProducer;
  cfg : ProducerConfig;
  sc : sarama.Config;
  closed : Z
}.

Definition store_closed (v : Z) (tp : TopicAsyncProducer)
  : TopicAsyncProducer :=
  {| Producer := Producer tp; cfg := cfg tp; sc := sc tp; closed := v |}.

(** The body of the goroutine started by [InitTopicAsyncProducer], run
    on the errors [errs] that come out of [producer.Errors()]. *)
Fixpoint error_drain (logger : option Wrapper) (errs : list error)
         (t : trace) : trace :=
  match errs with
  | [] => t
  | err :: rest =>
      error_drain logger rest
        (t ++ [EvLog logger (Error err);
               EvCounterAdd "kafka.producer.errors" 1])
  end.

(** [InitTopicAsyncProducer]: the Go pair [(Producer, error)]; the
    handle is [None] when it is [nil]. *)
Definition InitTopicAsyncProducer (NewAsyncProducer : Sarama)
           (cfg0 : ProducerConfig) (t : trace)
  : (option TopicAsyncProducer * option error) * trace :=
  if Nat.eqb (List.length (Brokers cfg0)) 0
  then ((None, Some ErrBrokersEmpty), t)
  else
    match NewSaramaConfig cfg0 with
    | inr err => ((None, Some err), t)
    | inl sc0 =>
        match NewAsyncProducer t (Brokers cfg0) sc0 with
        | inr err =>
            ((None, Some err),
             t ++ [EvNewAsyncProducer (Brokers cfg0) sc0 (Some err)])
        | inl producer =>
            let t1 := t ++ [EvNewAsyncProducer (Brokers cfg0) sc0 None] in
            let cfg1 := with_Logger (Some ErrorWithSentryWrapper) cfg0 in
            let t2 := t1 ++ [EvGoErrorDrain (Logger cfg1)] in
            ((Some {| Producer := producer; cfg := cfg1; sc := sc0;
                      closed := 0 |}, None), t2)
        end
    end.

Definition warn_closed : string :=
  "kafkabp.TopicAsyncProducer: Publish called after Close is called".

(** [Publish]. *)
Definition Publish (tp : TopicAsyncProducer) (msg : ProducerMessage)
           (t : trace) : outcome unit * trace :=
  if negb (closed tp =? 0)%Z
  then (Returns tt, t ++ [EvLog (Logger (cfg tp)) warn_closed])
  else
    let message :=
      {| sm_Topic := Topic msg;
         sm_Key := if Nat.ltb 0 (List.length (Key msg))
                   then Some (Key msg) else None;
         sm_Value := Data msg;
         sm_Timestamp := Timestamp msg |} in
    (* tp.Producer.Input() <- message *)
    if input_closed t then (Panics "send on closed channel", t)
    else if InputReady (Producer tp) t
         then (Returns tt, t ++ [EvInput message])
         else (Blocks, t).

(** [Close]. *)
Definition Close (tp : TopicAsyncProducer) (t : trace)
  : option error * TopicAsyncProducer * trace :=
  let tp1 := store_closed 1 tp in
  let err := ProducerClose (Producer tp1) t in
  (err, tp1, t ++ [EvProducerClose err]).

(** A caller publishing [msgs] one after the other; the outcomes are
    listed in call order. *)
Fixpoint publish_all (tp : TopicAsyncProducer) (msgs : list ProducerMessage)
         (t : trace) : list (outcome unit) * trace :=
  match msgs with
  | [] => ([], t)
  | m :: rest =>
      let '(o, t1) := Publish tp m t in
      let '(os, t2) := publish_all tp rest t1 in
      (o :: os, t2)
  end.

End producer_go.

(** ** consumer.go *)

Module consumer_go.

(** A [sarama.Consumer] is named by the order in which it was opened;
    a [sarama.PartitionConsumer] by the session, partition and offset
    it was opened on. *)
Definition Session : Type := nat.

Record PartitionConsumer : Type := {
  pc_session : Session;
  pc_partition : Z;
  pc_offset : Z
}.

(** What the consumer does to the outside, in order. *)
Inductive event : Type :=
| EvNewSaramaConsumer (brokers : list string) (sc : option sarama.Config)
                      (r : Session + error)
| EvPartitions (c : Session) (topic : string) (r : list Z + error)
| EvSessionClose (c : Session) (err : option error)
| EvConsumePartition (c : Session) (topic : string) (p offset : Z)
                     (err : option error)
| EvGoMessages (pc : PartitionConsumer)
    (* the goroutine ranging over [pc.Messages()] has been started *)
| EvGoErrors (pc : PartitionConsumer)
    (* the goroutine ranging over [pc.Errors()] has been started *)
| EvAsyncClose (pc : PartitionConsumer)
| EvWarn (msg : string) (err : error)
| EvCounterAdd (name : string) (delta : Z).

Definition trace : Type := list event.

(** Modelled from the spec: [DefaultSaramaConfig] and
    [NewSaramaConsumer] are called by [consumer.go] and declared
    nowhere under the sources; they are taken as parameters, with the
    Log Client Adapter of the spec ([OpenSession], [Session.Partitions],
    [Session.ConsumePartition], [Session.Close]).  What the adapter
    answers is a function of the trace so far. *)
Record Adapter : Type := {
  DefaultSaramaConfig : sarama.Config;
  NewSaramaConsumer : trace -> list string -> option sarama.Config
                      -> option error;
  Partitions : trace -> Session -> string -> list Z + error;
  SessionClose : trace -> Session -> option error;
  ConsumePartition : trace -> Session -> string -> Z -> Z -> option error
}.

Definition is_open (e : event) : bool :=
  match e with EvNewSaramaConsumer _ _ (inl _) => true | _ => false end.

(** The name of the session the next successful [NewSaramaConsumer]
    returns. *)
Definition new_session (t : trace) : Session :=
  List.length (filter is_open t).

(** Sessions opened so far, oldest first. *)
Fixpoint opened (t : trace) : list Session :=
  match t with
  | [] => []
  | EvNewSaramaConsumer _ _ (inl c) :: rest => c :: opened rest
  | _ :: rest => opened rest
  end.

(** Sessions on which [Close] was called, one entry per call. *)
Fixpoint session_closes (t : trace) : list Session :=
  match t with
  | [] => []
  | EvSessionClose c _ :: rest => c :: session_closes rest
  | _ :: rest => session_closes rest
  end.

(** Sessions opened and never closed. *)
Definition left_open (t : trace) : list Session :=
  filter (fun c => negb (existsb (Nat.eqb c) (session_closes t))) (opened t).

(** Modelled from the spec: the [ConsumerConfig] that [consumer.go] is
    written against is not the one of [config.go]; its fields are the
    ones [NewConsumer] reads: [Offset] is compared with the [int64]
    constant [OffsetNewest], [Tracing] is a [*bool] and [SaramaConfig]
    a [*sarama.Config]. *)
Record ConsumerConfig : Type := {
  Brokers : list string;
  Topic : string;
  ClientID : string;
  Offset : Z;
  Tracing : option bool;
  SaramaConfig : option sarama.Config
}.

Definition with_Offset (o : Z) (cfg0 : ConsumerConfig) : ConsumerConfig :=
  {| Brokers := Brokers cfg0; Topic := Topic cfg0;
     ClientID := ClientID cfg0; Offset := o;
     Tracing := Tracing cfg0; SaramaConfig := SaramaConfig cfg0 |}.

(** The struct [consumer].  Its field [consumer] is [consumer_] here, the
    name being taken by the record. *)
Record consumer : Type := {
  cfg : ConsumerConfig;
  topic : string;
  offset : Z;
  tracing : bool;
  name : string;
  consumer_ : option Session;                             (* atomic.Value *)
  partitions : option (list Z);                           (* atomic.Value *)
  partitionConsumers : option (list PartitionConsumer);   (* atomic.Value *)
  closed : Z;
  consumeReturned : Z;
  wg : Z
}.

(** The writes to the fields of a [consumer]. *)
Inductive store : Type :=
| StoreConsumer (c : Session)
| StorePartitions (ps : list Z)
| StorePartitionConsumers (pcs : list PartitionConsumer)
| StoreClosed (v : Z)
| StoreConsumeReturned (v : Z)
| WgAdd (delta : Z).

Definition apply_store (s : store) (kc : consumer) : consumer :=
  {| cfg := cfg kc; topic := topic kc; offset := offset kc;
     tracing := tracing kc; name := name kc;
     consumer_ := match s with
                  | StoreConsumer c => Some c | _ => consumer_ kc end;
     partitions := match s with
                   | StorePartitions ps => Some ps | _ => partitions kc end;
     partitionConsumers :=
       match s with
       | StorePartitionConsumers pcs => Some pcs
       | _ => partitionConsumers kc end;
     closed := match s with StoreClosed v => v | _ => closed kc end;
     consumeReturned :=
       match s with
       | StoreConsumeReturned v => v | _ => consumeReturned kc end;
     wg := match s with WgAdd d => (wg kc + d)%Z | _ => wg kc end |}.

Definition apply_stores (ss : list store) (kc : consumer) : consumer :=
  fold_left (fun k s => apply_store s k) ss kc.

(** The states of the shared [consumer] that another goroutine can
    load while the stores [ss] are performed one after the other. *)
Fixpoint observable (ss : list store) (kc : consumer) : list consumer :=
  kc :: match ss with
        | [] => []
        | s :: rest => observable rest (apply_store s kc)
        end.

Definition getConsumer (kc : consumer) : option Session := consumer_ kc.

Definition getPartitions (kc : consumer) : list Z :=
  match partitions kc with Some p => p | None => [] end.

Definition getPartitionConsumers (kc : consumer) : list PartitionConsumer :=
  match partitionConsumers kc with Some pc => pc | None => [] end.

(** What a reader that loads the three values at one instant sees. *)
Definition snapshot (kc : consumer)
  : option Session * list Z * list PartitionConsumer :=
  (getConsumer kc, getPartitions kc, getPartitionConsumers kc).

(** [IsHealthy]. *)
Definition IsHealthy (kc : consumer) : bool := (consumeReturned kc =? 0)%Z.

Definition warn_close : string := "Error closing the consumer".
Definition rebalance_failure : string := "kafka.consumer.rebalance.failure".
Definition rebalance_success : string := "kafka.consumer.rebalance.success".

Section WithAdapter.

Variable env : Adapter.

(** [Reset], lines 67-71: close the session in use, if any. *)
Definition close_prior (kc : consumer) (t : trace) : trace :=
  match getConsumer kc with
  | Some c =>
      match SessionClose env t c with
      | Some err =>
          t ++ [EvSessionClose c (Some err); EvWarn warn_close err]
      | None => t ++ [EvSessionClose c None]
      end
  | None => t
  end.

(** The closure [rebalance] of [Reset]: its error, and the stores it
    performs on [kc], in program order. *)
Definition rebalance (kc : consumer) (t : trace)
  : option error * list store * trace :=
  let brokers := Brokers (cfg kc) in
  let sc := SaramaConfig (cfg kc) in
  match NewSaramaConsumer env t brokers sc with
  | Some err =>
      (Some err, [], t ++ [EvNewSaramaConsumer brokers sc (inr err)])
  | None =>
      let c := new_session t in
      let t1 := t ++ [EvNewSaramaConsumer brokers sc (inl c)] in
      match Partitions env t1 c (Topic (cfg kc)) with
      | inr err =>
          (Some err, [], t1 ++ [EvPartitions c (Topic (cfg kc)) (inr err)])
      | inl ps =>
          (None, [StoreConsumer c; StorePartitions ps],
           t1 ++ [EvPartitions c (Topic (cfg kc)) (inl ps)])
      end
  end.

(** [Reset]. *)
Definition Reset (kc : consumer) (t : trace)
  : option error * consumer * trace :=
  let t0 := close_prior kc t in
  match rebalance kc t0 with
  | (Some err, ss, t1) =>
      (Some err, apply_stores ss kc,
       t1 ++ [EvCounterAdd rebalance_failure 1])
  | (None, ss, t1) =>
      (None, apply_stores ss kc,
       t1 ++ [EvCounterAdd rebalance_success 1])
  end.

(** The states of [kc] another goroutine can load during [Reset]. *)
Definition Reset_observable (kc : consumer) (t : trace) : list consumer :=
  let '(_, ss, _) := rebalance kc (close_prior kc t) in
  observable ss kc.

(** The client identifier [NewConsumer] validates: the one of the
    configuration when it is set, the one of the sarama
    configuration otherwise. *)
Definition resolved_ClientID (cfg0 : ConsumerConfig) : string :=
  if String.eqb (ClientID cfg0) ""
  then sarama.ClientID (match SaramaConfig cfg0 with
                        | None => DefaultSaramaConfig env
                        | Some sc => sc
                        end)
  else ClientID cfg0.

(** [NewConsumer]: the Go pair [(Consumer, error)]; the handle is
    [None] when it is [nil]. *)
Definition NewConsumer (cfg0 : ConsumerConfig) (t : trace)
  : outcome (option consumer * option error) * trace :=
  let sc0 := match SaramaConfig cfg0 with
             | None => DefaultSaramaConfig env
             | Some sc => sc
             end in
  let sc1 := if negb (String.eqb (ClientID cfg0) "")
             then sarama.set_ClientID (ClientID cfg0) sc0
             else sc0 in
  if String.eqb (sarama.ClientID sc1) ""
  then (Returns (None, Some ErrClientIDEmpty), t)
  else if Nat.eqb (List.length (Brokers cfg0)) 0
  then (Returns (None, Some ErrBrokersEmpty), t)
  else if String.eqb (Topic cfg0) ""
  then (Returns (None, Some ErrTopicEmpty), t)
  else
    let off := if negb (Offset cfg0 =? OffsetNewest)%Z
               then OffsetOldest else Offset cfg0 in
    match Tracing cfg0 with
    | None => (* *cfg.Tracing = true *)
        (Panics nil_dereference, t)
    | Some tr =>
        let sc2 := sarama.set_Consumer_Return_Errors true sc1 in
        let cfg1 := {| Brokers := Brokers cfg0; Topic := Topic cfg0;
                       ClientID := ClientID cfg0; Offset := off;
                       Tracing := Some tr; SaramaConfig := Some sc2 |} in
        let kc := {| cfg := cfg1; topic := Topic cfg1; offset := off;
                     tracing := tr; name := "";
                     consumer_ := None; partitions := None;
                     partitionConsumers := None;
                     closed := 0; consumeReturned := 0; wg := 0 |} in
        match Reset kc t with
        | (Some err, _, t1) => (Returns (None, Some err), t1)
        | (None, kc1, t1) => (Returns (Some kc1, None), t1)
        end
    end.


(** [Consume], lines 185-226: open one partition consumer per
    partition and start its two goroutines; [pcs] is the slice
    built so far.  [consumer.ConsumePartition] on a [nil] consumer
    panics. *)
Fixpoint open_partitions (c : option Session) (kc : consumer)
         (ps : list Z) (pcs : list PartitionConsumer) (t : trace)
  : outcome (list PartitionConsumer + error) * trace :=
  match ps with
  | [] => (Returns (inl pcs), t)
  | p :: rest =>
      match c with
      | None => (Panics nil_dereference, t)
      | Some s =>
          match ConsumePartition env t s (topic kc) p (offset kc) with
          | Some err =>
              (Returns (inr err),
               t ++ [EvConsumePartition s (topic kc) p (offset kc)
                       (Some err)])
          | None =>
              let pc := {| pc_session := s; pc_partition := p;
                           pc_offset := offset kc |} in
              open_partitions c kc rest (pcs ++ [pc])
                (t ++ [EvConsumePartition s (topic kc) p (offset kc) None;
                       EvGoMessages pc; EvGoErrors pc])
          end
      end
  end.

(** The [for] loop of [Consume], lines 179-238.  Each pass goes through
    [wg.Wait()], which returns when the goroutines of the pass are done,
    and at once when the assignment is empty and no goroutine was
    started; [script] has one entry per pass that gets past
    [wg.Wait()]: whether a concurrent [Close] has won its
    compare-and-swap on [closed] by the time the flag is loaded at
    line 231.  When the script is over the call has not returned,
    [Blocks]: it is waiting in [wg.Wait()] when partition consumers are
    open, and it is still going round the loop when the assignment is
    empty. *)
Fixpoint consume_loop (script : list bool) (kc : consumer) (t : trace)
  : outcome (option error) * consumer * trace :=
  match open_partitions (getConsumer kc) kc (getPartitions kc) [] t with
  | (Panics r, t1) => (Panics r, kc, t1)
  | (Blocks, t1) => (Blocks, kc, t1)
  | (Returns (inr err), t1) => (Returns (Some err), kc, t1)
  | (Returns (inl pcs), t1) =>
      let kc1 := apply_store (StorePartitionConsumers pcs) kc in
      match script with
      | [] => (Blocks, kc1, t1)
      | close_won :: rest =>
          let kc2 := if close_won then apply_store (StoreClosed 1) kc1
                     else kc1 in
          if negb (closed kc2 =? 0)%Z then (Returns None, kc2, t1)
          else
            match Reset kc2 t1 with
            | (Some err, kc3, t2) => (Returns (Some err), kc3, t2)
            | (None, kc3, t2) => consume_loop rest kc3 t2
            end
      end
  end.

(** The deferred calls of [Consume]: [wg.Done()], then the store to
    [consumeReturned]; they run when the loop returns or panics. *)
Definition run_deferred (r : outcome (option error) * consumer * trace)
  : outcome (option error) * consumer * trace :=
  match r with
  | (Blocks, kc1, t1) => (Blocks, kc1, t1)
  | (o, kc1, t1) =>
      (o, apply_stores [WgAdd (-1); StoreConsumeReturned 1] kc1, t1)
  end.

(** [Consume]. *)
Definition Consume (script : list bool) (kc : consumer) (t : trace)
  : outcome (option error) * consumer * trace :=
  run_deferred (consume_loop script (apply_store (WgAdd 1) kc) t).

(** A pass of the loop of [Consume] that goes round: the partition
    consumers open, their goroutines finish while [closed] is unset,
    and [Reset] succeeds.  [None] for every other pass. *)
Definition rebalance_pass (kc : consumer) (t : trace)
  : option (consumer * trace) :=
  match open_partitions (getConsumer kc) kc (getPartitions kc) [] t with
  | (Returns (inl pcs), t1) =>
      let kc1 := apply_store (StorePartitionConsumers pcs) kc in
      if negb (closed kc1 =? 0)%Z then None
      else match Reset kc1 t1 with
           | (None, kc3, t2) => Some (kc3, t2)
           | _ => None
           end
  | _ => None
  end.

Fixpoint rebalance_passes (n : nat) (kc : consumer) (t : trace)
  : option (consumer * trace) :=
  match n with
  | O => Some (kc, t)
  | S m =>
      match rebalance_pass kc t with
      | Some (kc1, t1) => rebalance_passes m kc1 t1
      | None => None
      end
  end.

(** [Close], called while no other goroutine runs: [kc.wg.Wait()]
    returns when the counter is zero and blocks forever otherwise. *)
Definition Close (kc : consumer) (t : trace)
  : outcome (option error) * consumer * trace :=
  if negb (closed kc =? 0)%Z then (Returns None, kc, t)
  else
    let kc1 := apply_store (StoreClosed 1) kc in
    let t1 := t ++ map EvAsyncClose (getPartitionConsumers kc1) in
    if negb (wg kc1 =? 0)%Z then (Blocks, kc1, t1)
    else
      match getConsumer kc1 with
      | None => (Panics nil_dereference, kc1, t1)
      | Some c =>
          let err := SessionClose env t1 c in
          (Returns err, kc1, t1 ++ [EvSessionClose c err])
      end.

(** A caller invoking [Close] [n] times in a row; the outcomes are
    listed in call order. *)
Fixpoint close_n (n : nat) (kc : consumer) (t : trace)
  : list (outcome (option error)) * consumer * trace :=
  match n with
  | O => ([], kc, t)
  | S m =>
      let '(o, kc1, t1) := Close kc t in
      let '(os, kc2, t2) := close_n m kc1 t1 in
      (o :: os, kc2, t2)
  end.

(** The operations of the [Consumer] interface, and [Reset], as a
    caller may issue them one after the other. *)
Inductive op : Type :=
| OpConsume (script : list bool)
| OpClose
| OpReset
| OpIsHealthy.

Definition run_op (o : op) (kc : consumer) (t : trace)
  : consumer * trace :=
  match o with
  | OpConsume script => let '(_, kc1, t1) := Consume script kc t in (kc1, t1)
  | OpClose => let '(_, kc1, t1) := Close kc t in (kc1, t1)
  | OpReset => let '(_, kc1, t1) := Reset kc t in (kc1, t1)
  | OpIsHealthy => (kc, t)
  end.

(** Has this operation returned from [Consume]? *)
Definition returns_from_Consume (o : op) (kc : consumer) (t : trace)
  : bool :=
  match o with
  | OpConsume script =>
      match Consume script kc t with
      | (Blocks, _, _) => false
      | _ => true
      end
  | _ => false
  end.

(** Has some [Consume] among the operations [os] returned? *)
Fixpoint Consume_has_returned (os : list op) (kc : consumer) (t : trace)
  : bool :=
  match os with
  | [] => false
  | o :: rest =>
      let '(kc1, t1) := run_op o kc t in
      returns_from_Consume o kc t || Consume_has_returned rest kc1 t1
  end.

Fixpoint run_ops (os : list op) (kc : consumer) (t : trace)
  : consumer * trace :=
  match os with
  | [] => (kc, t)
  | o :: rest => let '(kc1, t1) := run_op o kc t in run_ops rest kc1 t1
  end.


(** *** [Close] under concurrent callers

    Each caller of [Close] is at one of the following places of the
    function; one step of a caller is one access to the shared
    [consumer] or one call into sarama. *)
Inductive close_pc : Type :=
| AtCAS                                       (* line 149 *)
| AtLoad                                      (* line 153 *)
| AtAsyncClose (rest : list PartitionConsumer)  (* lines 154-157 *)
| AtWait                                      (* line 159 *)
| AtSessionClose                              (* line 160 *)
| ReturnedEarly                               (* line 150: [return nil] *)
| Returned (r : option error)                 (* line 160 *)
| Panicked (reason : string).

(** What the call has produced so far; [None] while it is running. *)
Definition close_result (pc : close_pc) : option (outcome (option error)) :=
  match pc with
  | ReturnedEarly => Some (Returns None)
  | Returned r => Some (Returns r)
  | Panicked reason => Some (Panics reason)
  | _ => None
  end.

(** One step of a caller; [None] when the caller cannot move (it is
    done, or waits on [kc.wg]). *)
Definition close_step (pc : close_pc) (kc : consumer) (t : trace)
  : option (close_pc * consumer * trace) :=
  match pc with
  | AtCAS =>
      if (closed kc =? 0)%Z
      then Some (AtLoad, apply_store (StoreClosed 1) kc, t)
      else Some (ReturnedEarly, kc, t)
  | AtLoad => Some (AtAsyncClose (getPartitionConsumers kc), kc, t)
  | AtAsyncClose [] => Some (AtWait, kc, t)
  | AtAsyncClose (pc0 :: rest) =>
      Some (AtAsyncClose rest, kc, t ++ [EvAsyncClose pc0])
  | AtWait => if (wg kc =? 0)%Z then Some (AtSessionClose, kc, t) else None
  | AtSessionClose =>
      match getConsumer kc with
      | None => Some (Panicked nil_dereference, kc, t)
      | Some c =>
          let err := SessionClose env t c in
          Some (Returned err, kc, t ++ [EvSessionClose c err])
      end
  | ReturnedEarly | Returned _ | Panicked _ => None
  end.

Record system : Type := {
  shared : consumer;
  world : trace;
  callers : list close_pc
}.

(** A scheduler picks the caller that moves next, or lets the
    [Consume] that is running return (its deferred [wg.Done()] and
    store to [consumeReturned]).  These are the steps of the callers of
    [Close] and the one step of [Consume] they wait for; a [Consume]
    that starts while they run, and the stores of a running [Consume],
    are the further actions of [step_with_Consume] below. *)
Inductive action : Type :=
| Caller (i : nat)
| ConsumeReturns.

Fixpoint update_nth {A : Type} (i : nat) (x : A) (l : list A) : list A :=
  match l, i with
  | [], _ => []
  | _ :: rest, O => x :: rest
  | y :: rest, S j => y :: update_nth j x rest
  end.

Definition step (a : action) (s : system) : system :=
  match a with
  | ConsumeReturns =>
      if (0 <? wg (shared s))%Z
      then {| shared := apply_stores [WgAdd (-1); StoreConsumeReturned 1]
                          (shared s);
              world := world s; callers := callers s |}
      else s
  | Caller i =>
      match nth_error (callers s) i with
      | None => s
      | Some pc =>
          match close_step pc (shared s) (world s) with
          | None => s
          | Some (pc', kc', t') =>
              {| shared := kc'; world := t';
                 callers := update_nth i pc' (callers s) |}
          end
      end
  end.

Definition run (sched : list action) (s : system) : system :=
  fold_left (fun s0 a => step a s0) sched s.

(** [n] callers entering [Close] on [kc]. *)
Definition close_calls (n : nat) (kc : consumer) (t : trace) : system :=
  {| shared := kc; world := t; callers := repeat AtCAS n |}.

Definition results (s : system) : list (option (outcome (option error))) :=
  map close_result (callers s).

Definition returned (pc : close_pc) : bool :=
  match pc with
  | ReturnedEarly | Returned _ => true
  | _ => false
  end.

Definition all_returned (s : system) : bool := forallb returned (callers s).

(** A schedule that lets the running [Consume] return and then every
    caller run to its end, one after the other. *)
Definition finish (s : system) : list action :=
  repeat ConsumeReturns (Z.to_nat (wg (shared s)))
  ++ flat_map
       (fun i =>
          repeat (Caller i)
            (match nth i (callers s) AtCAS with
             | AtAsyncClose rest => List.length rest + 3
             | _ => List.length (getPartitionConsumers (shared s)) + 5
             end))
       (seq 0 (List.length (callers s))).


(** Callers that have won the compare-and-swap, wherever they are
    afterwards. *)
Definition in_close (pc : close_pc) : nat :=
  match pc with
  | AtCAS | ReturnedEarly => 0
  | _ => 1
  end.

(** Callers that have closed the session. *)
Definition closed_session (pc : close_pc) : nat :=
  match pc with
  | Returned _ => 1
  | _ => 0
  end.

Definition returned_early (pc : close_pc) : nat :=
  match pc with
  | ReturnedEarly => 1
  | _ => 0
  end.

Definition total (w : close_pc -> nat) (l : list close_pc) : nat :=
  list_sum (map w l).

(** The steps a caller at [pc] needs at most to reach its end, once
    [kc.wg] is zero. *)
Definition steps_left (pc : close_pc) (kc : consumer) : nat :=
  match pc with
  | AtCAS => List.length (getPartitionConsumers kc) + 5
  | AtLoad => List.length (getPartitionConsumers kc) + 4
  | AtAsyncClose rest => List.length rest + 3
  | AtWait => 2
  | AtSessionClose => 1
  | _ => 0
  end.

(** What holds of every state that [n] callers of [Close] reach from
    a consumer that is open and holds the session [c], the trace
    being [t0] when they enter. *)
Record close_inv (c : Session) (t0 : trace) (n : nat) (s : system)
  : Prop := {
  inv_callers : List.length (callers s) = n;
  inv_session : getConsumer (shared s) = Some c;
  inv_wg : (0 <= wg (shared s))%Z;
  inv_flag : closed (shared s) = 0%Z \/ closed (shared s) = 1%Z;
  inv_winner : total in_close (callers s)
               = if (closed (shared s) =? 0)%Z then 0 else 1;
  inv_early : closed (shared s) = 0%Z ->
              total returned_early (callers s) = 0;
  inv_no_panic : forall i r,
      nth_error (callers s) i <> Some (Panicked r);
  inv_closes : session_closes (world s)
               = session_closes t0
                 ++ repeat c (total closed_session (callers s));
  inv_result : forall i r,
      nth_error (callers s) i = Some (Returned r) ->
      exists t', world s = t' ++ [EvSessionClose c r]
                 /\ r = SessionClose env t' c
}.


(** What a step of the caller at [i] leaves alone. *)
Definition same_but (i : nat) (s s' : system) : Prop :=
  (forall j, j <> i -> nth_error (callers s') j = nth_error (callers s) j)
  /\ List.length (callers s') = List.length (callers s)
  /\ wg (shared s') = wg (shared s)
  /\ getPartitionConsumers (shared s') = getPartitionConsumers (shared s).

End WithAdapter.

End consumer_go.

(** ** Sample configurations and scripted collaborators *)

Module samples.

Import consumer_go.

(** A consumer configuration in the old, string-typed format. *)
Definition yaml_cfg (brokers : list string) (offset : string)
  : config_go.ConsumerConfig :=
  {| config_go.Brokers := brokers; config_go.Topic := "t";
     config_go.ClientID := "c1"; config_go.Offset := offset |}.

Definition consumer_cfg (offset : Z) (tr : option bool) : ConsumerConfig :=
  {| Brokers := ["b1:9092"]; Topic := "t"; ClientID := "c1";
     Offset := offset; Tracing := tr; SaramaConfig := None |}.

(** No brokers, no client identifier, and a sarama configuration whose
    client identifier is empty as well. *)
Definition anonymous_cfg : ConsumerConfig :=
  {| Brokers := []; Topic := "t"; ClientID := "";
     Offset := OffsetOldest; Tracing := Some true;
     SaramaConfig := Some (sarama.set_ClientID "" sarama.NewConfig) |}.

(** A broker that answers every call; the first session owns the
    partitions 0 and 1, later ones the partitions 2 and 3. *)
Definition steady : Adapter :=
  {| DefaultSaramaConfig := sarama.NewConfig;
     NewSaramaConsumer := fun _ _ _ => None;
     Partitions := fun _ c _ =>
                     inl (if Nat.eqb c 0 then [0; 1] else [2; 3])%Z;
     SessionClose := fun _ _ => None;
     ConsumePartition := fun _ _ _ _ _ => None |}.

(** As [steady], but closing a session reports an error. *)
Definition close_fails : Adapter :=
  {| DefaultSaramaConfig := sarama.NewConfig;
     NewSaramaConsumer := fun _ _ _ => None;
     Partitions := fun _ _ _ => inl [0; 1]%Z;
     SessionClose := fun _ _ => Some (ErrSarama "close: broken pipe");
     ConsumePartition := fun _ _ _ _ _ => None |}.

(** A broker that accepts the connection and fails the partition
    query. *)
Definition no_metadata : Adapter :=
  {| DefaultSaramaConfig := sarama.NewConfig;
     NewSaramaConsumer := fun _ _ _ => None;
     Partitions := fun _ _ _ => inr (ErrSarama "topic metadata unavailable");
     SessionClose := fun _ _ => None;
     ConsumePartition := fun _ _ _ _ _ => None |}.

(** A broker that accepts one session and refuses every later one. *)
Definition one_session : Adapter :=
  {| DefaultSaramaConfig := sarama.NewConfig;
     NewSaramaConsumer := fun t _ _ =>
                            if Nat.eqb (new_session t) 0 then None
                            else Some (ErrSarama "out of brokers");
     Partitions := fun _ _ _ => inl [0; 1]%Z;
     SessionClose := fun _ _ => None;
     ConsumePartition := fun _ _ _ _ _ => None |}.

(** The consumer [NewConsumer] builds against [env], when it builds
    one; the zero consumer otherwise. *)
Definition zero_consumer : consumer :=
  {| cfg := consumer_cfg 0 None; topic := ""; offset := 0; tracing := false;
     name := ""; consumer_ := None; partitions := None;
     partitionConsumers := None; closed := 0; consumeReturned := 0;
     wg := 0 |}.

Definition built (env : Adapter) : consumer * trace :=
  match NewConsumer env (consumer_cfg OffsetNewest (Some true)) [] with
  | (Returns (Some kc, _), t) => (kc, t)
  | (_, t) => (zero_consumer, t)
  end.

(** A producer client that takes every message and closes cleanly. *)
Definition willing : producer_go.AsyncProducer :=
  {| producer_go.InputReady := fun _ => true;
     producer_go.ProducerClose := fun _ => None |}.

Definition new_willing : producer_go.Sarama := fun _ _ _ => inl willing.

Definition producer_cfg (l : option producer_go.Wrapper)
  : producer_go.ProducerConfig :=
  {| producer_go.Brokers := ["b1:9092"]; producer_go.Logger := l |}.

Definition sample_message : producer_go.ProducerMessage :=
  {| producer_go.Topic := "t";
     producer_go.Data := [Byte.x01; Byte.x02; Byte.x03];
     producer_go.Key := [];
     producer_go.Timestamp := 0 |}.

(** The producer [InitTopicAsyncProducer] builds for [producer_cfg]. *)
Definition built_producer (l : option producer_go.Wrapper)
  : producer_go.TopicAsyncProducer * producer_go.trace :=
  match producer_go.InitTopicAsyncProducer new_willing (producer_cfg l) [] with
  | ((Some tp, _), t) => (tp, t)
  | (_, t) =>
      ({| producer_go.Producer := willing;
          producer_go.cfg := producer_cfg l;
          producer_go.sc := sarama.NewConfig;
          producer_go.closed := 0 |}, t)
  end.

End samples.

(** ** The goroutines of [Consume] *)

Module workers_go.

Import consumer_go.

(** The fields of [sarama.ConsumerMessage] a callback can read. *)
Record ConsumerMessage : Type := {
  msg_Topic : string;
  msg_Partition : Z;
  msg_Offset : Z;
  msg_Key : list Byte.byte;
  msg_Value : list Byte.byte
}.

(** The [context.Context] handed to the callback: [context.Background()],
    or the context of the span started for the message. *)
Inductive context : Type :=
| Background
| SpanContext (spanName : string).

(** [ConsumeMessageFunc] and what a goroutine does to the outside. *)
Definition ConsumeMessageFunc : Type :=
  context -> ConsumerMessage -> option error.

Inductive worker_event : Type :=
| EvStartSpan (spanName : string)
    (* [tracing.StartTopLevelServerSpan(ctx, spanName)] *)
| EvMessagesFunc (ctx : context) (m : ConsumerMessage) (err : option error)
    (* [messagesFunc(ctx, m)] has returned [err] *)
| EvFinishSpan (spanName : string) (err : option error)
    (* [span.FinishWithOptions] with [Err: err] *)
| EvErrorsFunc (err : error).
    (* [errorsFunc(err)] *)

(** Lines 198-214: the anonymous function run for one message. *)
Definition consume_message (kc : consumer) (messagesFunc : ConsumeMessageFunc)
           (m : ConsumerMessage) : list worker_event :=
  if tracing kc
  then
    let spanName := String.append "consumer." (topic kc) in
    let ctx := SpanContext spanName in
    let err := messagesFunc ctx m in
    [EvStartSpan spanName; EvMessagesFunc ctx m err; EvFinishSpan spanName err]
  else
    let err := messagesFunc Background m in
    [EvMessagesFunc Background m err].

(** Lines 194-216: the goroutine ranging over [pc.Messages()]; [ms] is
    what the channel delivers before it is closed. *)
Fixpoint messages_worker (kc : consumer) (messagesFunc : ConsumeMessageFunc)
         (ms : list ConsumerMessage) : list worker_event :=
  match ms with
  | [] => []
  | m :: rest =>
      consume_message kc messagesFunc m ++ messages_worker kc messagesFunc rest
  end.

(** Lines 220-225: the goroutine ranging over [pc.Errors()]. *)
Fixpoint errors_worker (errs : list error) : list worker_event :=
  match errs with
  | [] => []
  | err :: rest => EvErrorsFunc err :: errors_worker rest
  end.

(** The calls to the callbacks among the events, in order. *)
Fixpoint callbacks (evs : list worker_event)
  : list (ConsumerMessage * option error) :=
  match evs with
  | [] => []
  | EvMessagesFunc _ m err :: rest => (m, err) :: callbacks rest
  | _ :: rest => callbacks rest
  end.

Definition is_span (e : worker_event) : bool :=
  match e with
  | EvStartSpan _ | EvFinishSpan _ _ => true
  | _ => false
  end.

(** The spans among the events, each with the error it was finished
    with, in order. *)
Fixpoint finished_spans (evs : list worker_event)
  : list (string * option error) :=
  match evs with
  | [] => []
  | EvFinishSpan n err :: rest => (n, err) :: finished_spans rest
  | _ :: rest => finished_spans rest
  end.

End workers_go.

(** ** Counting what a trace holds *)

Module observe.

Import consumer_go.

(** The value added so far to the counter [name]. *)
Fixpoint counter (name : string) (t : trace) : Z :=
  match t with
  | [] => 0
  | EvCounterAdd n delta :: rest =>
      ((if String.eqb n name then delta else 0) + counter name rest)%Z
  | _ :: rest => counter name rest
  end.

(** The partition consumers [AsyncClose] was called on, in order. *)
Fixpoint async_closes (t : trace) : list PartitionConsumer :=
  match t with
  | [] => []
  | EvAsyncClose pc :: rest => pc :: async_closes rest
  | _ :: rest => async_closes rest
  end.

(** The partitions [ConsumePartition] was called for, in order. *)
Fixpoint partitions_tried (t : trace) : list Z :=
  match t with
  | [] => []
  | EvConsumePartition _ _ p _ _ :: rest => p :: partitions_tried rest
  | _ :: rest => partitions_tried rest
  end.

(** The goroutines started, two per partition consumer. *)
Fixpoint goroutines (t : trace) : list PartitionConsumer :=
  match t with
  | [] => []
  | EvGoMessages pc :: rest => pc :: goroutines rest
  | EvGoErrors pc :: rest => pc :: goroutines rest
  | _ :: rest => goroutines rest
  end.

(** The partition consumer [ConsumePartition] returns for partition [p]
    on the session [c] of [kc]. *)
Definition handle (c : Session) (kc : consumer) (p : Z) : PartitionConsumer :=
  {| pc_session := c; pc_partition := p; pc_offset := offset kc |}.

(** Where the trace stands while the caller of [Close] that won the
    compare-and-swap is at [pc]: [t0] is the trace when the callers
    entered, [pcs] the partition consumers of the consumer, [c] its
    session. *)
Definition close_progress (c : Session) (pcs : list PartitionConsumer)
           (t0 : trace) (pc : close_pc) (t : trace) : Prop :=
  match pc with
  | AtCAS | ReturnedEarly | Panicked _ => True
  | AtLoad => t = t0
  | AtAsyncClose rest =>
      exists done, pcs = done ++ rest /\ t = t0 ++ map EvAsyncClose done
  | AtWait | AtSessionClose => t = t0 ++ map EvAsyncClose pcs
  | Returned r =>
      t = (t0 ++ map EvAsyncClose pcs) ++ [EvSessionClose c r]
  end.

(** With the invariant of [Close], the trace is where the caller that
    won the compare-and-swap has brought it. *)
Definition progress_inv (c : Session)
           (pcs : list PartitionConsumer) (t0 : trace) (s : system) : Prop :=
  getPartitionConsumers (shared s) = pcs
  /\ (closed (shared s) = 0%Z -> world s = t0)
  /\ forall i pc, nth_error (callers s) i = Some pc ->
                  close_progress c pcs t0 pc (world s).


(** The events of opening the partition consumers of the partitions
    [ps] on the session [c], each with its two goroutines, when every
    [ConsumePartition] succeeds. *)
Definition streams (c : Session) (kc : consumer) (ps : list Z) : trace :=
  flat_map
    (fun p => [EvConsumePartition c (topic kc) p (offset kc) None;
               EvGoMessages (handle c kc p);
               EvGoErrors (handle c kc p)])
    ps.

(** The callers of [Close] together with what [Consume] does to the
    shared consumer while they run: it may start (its [kc.wg.Add(1)],
    line 171), and once running it may store a session, an assignment
    or partition consumers (lines 84, 85 and 227). *)
Inductive action_with_Consume : Type :=
| OfClose (a : action)
| ConsumeStarts
| ConsumeStores (st : store).

Definition is_atomic_Value (st : store) : bool :=
  match st with
  | StoreConsumer _ | StorePartitions _ | StorePartitionConsumers _ => true
  | _ => false
  end.

Definition step_with_Consume (env : Adapter) (a : action_with_Consume)
           (s : system) : system :=
  match a with
  | OfClose a0 => step env a0 s
  | ConsumeStarts =>
      {| shared := apply_store (WgAdd 1) (shared s);
         world := world s; callers := callers s |}
  | ConsumeStores st =>
      if is_atomic_Value st && (0 <? wg (shared s))%Z
      then {| shared := apply_store st (shared s);
              world := world s; callers := callers s |}
      else s
  end.

Definition run_with_Consume (env : Adapter)
           (sched : list action_with_Consume) (s : system) : system :=
  fold_left (fun s0 a => step_with_Consume env a s0) sched s.

Definition starts_Consume (a : action_with_Consume) : bool :=
  match a with ConsumeStarts => true | _ => false end.

End observe.

(** ** The producer, called several times *)

Module producer_more.

Import producer_go.

(** Lines 89-97 of [Publish]: the [sarama.ProducerMessage] built from
    [msg]. *)
Definition sarama_message (msg : ProducerMessage) : SaramaMessage :=
  {| sm_Topic := Topic msg;
     sm_Key := if Nat.ltb 0 (List.length (Key msg))
               then Some (Key msg) else None;
     sm_Value := Data msg;
     sm_Timestamp := Timestamp msg |}.

(** A caller invoking [Close] [n] times in a row; the results are listed
    in call order. *)
Fixpoint close_n (n : nat) (tp : TopicAsyncProducer) (t : trace)
  : list (option error) * TopicAsyncProducer * trace :=
  match n with
  | O => ([], tp, t)
  | S m =>
      let '(err, tp1, t1) := Close tp t in
      let '(errs, tp2, t2) := close_n m tp1 t1 in
      (err :: errs, tp2, t2)
  end.


Definition is_counter (e : event) : bool :=
  match e with EvCounterAdd _ _ => true | _ => false end.

Definition is_drain (e : event) : bool :=
  match e with EvGoErrorDrain _ => true | _ => false end.

(** What [n] calls to [ProducerClose] in a row answer on the client
    [client], the trace being [t] before the first: each answer is
    recorded in the trace the next one is asked on. *)
Fixpoint close_answers (n : nat) (client : AsyncProducer) (t : trace)
  : list (option error) :=
  match n with
  | O => []
  | S m =>
      let err := ProducerClose client t in
      err :: close_answers m client (t ++ [EvProducerClose err])
  end.

End producer_more.


(** * Properties *)

(** ** Configuration and validation *)

Module config_spec.

Import config_go.

Lemma eqb_neq_false (a b : string) : a <> b -> String.eqb a b = false.
Proof. intros H. apply String.eqb_neq. exact H. Qed.

Lemma brokers_nonempty (A : Type) (l : list A) :
  l <> [] -> Nat.eqb (List.length l) 0 = false.
Proof. destruct l; [congruence | reflexivity]. Qed.

(** With brokers, topic and client identifier in place, the offset
    string alone decides what [NewSaramaConfig] returns. *)
Lemma NewSaramaConfig_valid (cfg : ConsumerConfig) :
  Brokers cfg <> [] -> Topic cfg <> "" -> ClientID cfg <> "" ->
  NewSaramaConfig cfg =
    let c := sarama.set_Consumer_Return_Errors true sarama.NewConfig in
    if String.eqb (Offset cfg) "" || String.eqb (Offset cfg) "oldest"
    then inl (sarama.set_Consumer_Offsets_Initial sarama.OffsetOldest c)
    else if String.eqb (Offset cfg) "newest"
    then inl (sarama.set_Consumer_Offsets_Initial sarama.OffsetNewest c)
    else inr ErrOffsetInvalid.
Proof.
  intros Hb Ht Hc. unfold NewSaramaConfig.
  rewrite (brokers_nonempty Hb), (eqb_neq_false Ht), (eqb_neq_false Hc).
  cbv zeta.
  destruct (String.eqb (Offset cfg) ""); [reflexivity |].
  destruct (String.eqb (Offset cfg) "oldest"); reflexivity.
Qed.

(** An empty offset and ["oldest"] are not told apart, whatever the
    other fields. *)
Lemma NewSaramaConfig_default_offset (cfg : ConsumerConfig) :
  NewSaramaConfig (with_Offset "" cfg)
  = NewSaramaConfig (with_Offset "oldest" cfg).
Proof.
  unfold NewSaramaConfig, with_Offset; simpl.
  destruct (Nat.eqb _ 0); [reflexivity |].
  destruct (String.eqb (Topic cfg) ""); [reflexivity |].
  destruct (String.eqb (ClientID cfg) ""); reflexivity.
Qed.

End config_spec.

(** ** The producer *)

Module producer_spec.

Import producer_go.

Lemma input_closed_app (t u : trace) :
  input_closed (t ++ u) = input_closed t || input_closed u.
Proof. unfold input_closed. apply existsb_app. Qed.

Lemma inputs_app (t u : trace) : inputs (t ++ u) = inputs t ++ inputs u.
Proof. unfold inputs. apply filter_app. Qed.

(** [Close] leaves the flag set, whatever the client answers. *)
Lemma Close_sets_closed tp t err tp' t' :
  Close tp t = (err, tp', t') ->
  closed tp' = 1%Z /\ cfg tp' = cfg tp /\ input_closed t' = true.
Proof.
  unfold Close. intros H. inversion H; subst; clear H.
  repeat split. rewrite input_closed_app. simpl. apply orb_true_r.
Qed.

(** With the flag set, [Publish] returns after one call to the logger:
    no send on the input channel is attempted. *)
Lemma Publish_closed tp msg t :
  closed tp <> 0%Z ->
  Publish tp msg t = (Returns tt, t ++ [EvLog (Logger (cfg tp)) warn_closed]).
Proof.
  intros H. unfold Publish.
  destruct (Z.eqb_spec (closed tp) 0); [contradiction | reflexivity].
Qed.

Lemma publish_all_closed tp msgs : forall t,
  closed tp <> 0%Z ->
  publish_all tp msgs t
  = (map (fun _ => Returns tt) msgs,
     t ++ map (fun _ => EvLog (Logger (cfg tp)) warn_closed) msgs).
Proof.
  induction msgs as [| m rest IH]; intros t H; simpl.
  - now rewrite app_nil_r.
  - rewrite Publish_closed by assumption.
    rewrite IH by assumption. rewrite <- app_assoc. reflexivity.
Qed.

Lemma inputs_warnings (l : option Wrapper) (A : Type) (msgs : list A) :
  inputs (map (fun _ => EvLog l warn_closed) msgs) = [].
Proof. induction msgs; simpl; auto. Qed.

(** Whatever logger the configuration carries, a producer that was
    built logs through [ErrorWithSentryWrapper], and so does the
    goroutine draining the error channel. *)
Lemma Init_logger new cfg0 t tp err t' :
  InitTopicAsyncProducer new cfg0 t = ((Some tp, err), t') ->
  Logger (cfg tp) = Some ErrorWithSentryWrapper
  /\ exists t1, t' = t1 ++ [EvGoErrorDrain (Some ErrorWithSentryWrapper)].
Proof.
  unfold InitTopicAsyncProducer.
  destruct (Nat.eqb _ 0); [discriminate |].
  simpl. destruct (new t (Brokers cfg0) _) as [producer | e]; [| discriminate].
  intros H. inversion H; subst; clear H. simpl. split; [reflexivity |].
  eexists. reflexivity.
Qed.

(** Every error drained is handed to the logger the goroutine was
    started with. *)
Lemma error_drain_logs logger errs : forall t,
  filter is_log (error_drain logger errs t)
  = filter is_log t ++ map (fun e => EvLog logger (Error e)) errs.
Proof.
  induction errs as [| e rest IH]; intros t; simpl.
  - now rewrite app_nil_r.
  - rewrite IH, filter_app. simpl. rewrite <- app_assoc. reflexivity.
Qed.

End producer_spec.

(** ** The consumer *)

Module consumer_spec.

Import consumer_go.

(** *** Traces *)

Lemma opened_app (t u : trace) : opened (t ++ u) = opened t ++ opened u.
Proof.
  induction t as [| e t IH]; simpl; [reflexivity |].
  destruct e; try exact IH.
  destruct r; [simpl; f_equal |]; exact IH.
Qed.

Lemma session_closes_app (t u : trace) :
  session_closes (t ++ u) = session_closes t ++ session_closes u.
Proof.
  induction t as [| e t IH]; simpl; [reflexivity |].
  destruct e; try exact IH. simpl. f_equal. exact IH.
Qed.

Lemma session_closes_AsyncClose (pcs : list PartitionConsumer) :
  session_closes (map EvAsyncClose pcs) = [].
Proof. induction pcs; simpl; auto. Qed.

(** *** Lists of callers *)

Lemma length_update_nth (A : Type) (x : A) (l : list A) : forall i,
  List.length (update_nth i x l) = List.length l.
Proof.
  induction l as [| y l IH]; intros [| i]; simpl; auto.
Qed.

Lemma nth_error_update_nth_eq (A : Type) (x : A) (l : list A) : forall i y,
  nth_error l i = Some y -> nth_error (update_nth i x l) i = Some x.
Proof.
  induction l as [| z l IH]; intros [| i] y; simpl; try discriminate; eauto.
Qed.

Lemma nth_error_update_nth_neq (A : Type) (x : A) (l : list A) : forall i j,
  i <> j -> nth_error (update_nth i x l) j = nth_error l j.
Proof.
  induction l as [| z l IH]; intros [| i] [| j] H; simpl; auto;
    try congruence.
Qed.

Lemma total_update_nth w x (l : list close_pc) : forall i old,
  nth_error l i = Some old ->
  total w (update_nth i x l) + w old = total w l + w x.
Proof.
  unfold total.
  induction l as [| z l IH]; intros [| i] old; simpl; try discriminate.
  - intros H; inversion H; subst. lia.
  - intros H. specialize (IH _ _ H). lia.
Qed.

Lemma total_nth_le w (l : list close_pc) : forall i x,
  nth_error l i = Some x -> w x <= total w l.
Proof.
  unfold total.
  induction l as [| z l IH]; intros [| i] x; simpl; try discriminate.
  - intros H; inversion H; subst. lia.
  - intros H. specialize (IH _ _ H). lia.
Qed.

(** Two distinct callers weigh no more than the whole list. *)
Lemma total_two_le w (l : list close_pc) : forall i j x y,
  i <> j -> nth_error l i = Some x -> nth_error l j = Some y ->
  w x + w y <= total w l.
Proof.
  induction l as [| z l IH]; intros [| i] [| j] x y Hne Hi Hj;
    simpl in *; try discriminate; try congruence.
  - inversion Hi; subst. pose proof (total_nth_le w _ _ Hj).
    unfold total in *. simpl. lia.
  - inversion Hj; subst. pose proof (total_nth_le w _ _ Hi).
    unfold total in *. simpl. lia.
  - assert (i <> j) by congruence.
    specialize (IH _ _ _ _ H Hi Hj). unfold total in *. simpl. lia.
Qed.

Lemma total_repeat_AtCAS w n : w AtCAS = 0 -> total w (repeat AtCAS n) = 0.
Proof.
  intros H. unfold total. induction n; simpl; [reflexivity | lia].
Qed.

(** A list of weight one has exactly one caller of weight one. *)
Lemma total_one w (l : list close_pc) :
  (forall x, w x <= 1) -> total w l = 1 ->
  exists i x, nth_error l i = Some x /\ w x = 1
              /\ forall j y, j <> i -> nth_error l j = Some y -> w y = 0.
Proof.
  intros Hw. unfold total.
  induction l as [| z l IH]; simpl; [discriminate |].
  intros H. destruct (Nat.eq_dec (w z) 1) as [Hz | Hz].
  - exists 0, z. repeat split; auto.
    intros [| j] y Hj Hy; [congruence |]. simpl in Hy.
    pose proof (total_nth_le w _ _ Hy). unfold total in *. lia.
  - pose proof (Hw z). assert (w z = 0) by lia.
    destruct IH as (i & x & Hi & Hx & Hrest); [lia |].
    exists (S i), x. repeat split; auto.
    intros [| j] y Hj Hy; simpl in Hy.
    + inversion Hy; subst; auto.
    + apply (Hrest j); congruence.
Qed.

Lemma forallb_nth_error (A : Type) (f : A -> bool) (l : list A) :
  (forall i x, nth_error l i = Some x -> f x = true) -> forallb f l = true.
Proof.
  induction l as [| z l IH]; intros H; simpl; [reflexivity |].
  rewrite (H 0 z eq_refl). apply IH. intros i x Hi. apply (H (S i) x Hi).
Qed.

Lemma nth_error_forallb (A : Type) (f : A -> bool) (l : list A) i x :
  forallb f l = true -> nth_error l i = Some x -> f x = true.
Proof.
  intros H Hi. rewrite forallb_forall in H. apply H.
  eapply nth_error_In; eauto.
Qed.


(** *** [Reset] *)

Section Reset.

Variable env : Adapter.

(** [Reset] writes the session and the assignment, nothing else. *)
Lemma Reset_frame kc t e kc' t' :
  Reset env kc t = (e, kc', t') ->
  closed kc' = closed kc /\ consumeReturned kc' = consumeReturned kc
  /\ wg kc' = wg kc /\ partitionConsumers kc' = partitionConsumers kc
  /\ cfg kc' = cfg kc /\ topic kc' = topic kc /\ offset kc' = offset kc.
Proof.
  unfold Reset, rebalance.
  destruct (NewSaramaConsumer env _ _ _).
  - intros H; inversion H; subst; simpl; tauto.
  - destruct (Partitions env _ _ _);
      intros H; inversion H; subst; simpl; tauto.
Qed.

(** A failed [Reset] leaves the consumer as it was. *)
Lemma Reset_failure kc t err kc' t' :
  Reset env kc t = (Some err, kc', t') -> kc' = kc.
Proof.
  unfold Reset, rebalance.
  destruct (NewSaramaConsumer env _ _ _).
  - intros H; inversion H; reflexivity.
  - destruct (Partitions env _ _ _);
      intros H; inversion H; reflexivity.
Qed.

(** A successful [Reset] publishes the session it has just opened
    and the partitions that session reports. *)
Lemma Reset_success kc t kc' t' :
  Reset env kc t = (None, kc', t') ->
  let t0 := close_prior env kc t in
  let c := new_session t0 in
  let t1 := t0 ++ [EvNewSaramaConsumer (Brokers (cfg kc))
                     (SaramaConfig (cfg kc)) (inl c)] in
  exists ps,
    Partitions env t1 c (Topic (cfg kc)) = inl ps
    /\ kc' = apply_stores [StoreConsumer c; StorePartitions ps] kc
    /\ t' = t1 ++ [EvPartitions c (Topic (cfg kc)) (inl ps);
                   EvCounterAdd rebalance_success 1].
Proof.
  unfold Reset, rebalance.
  destruct (NewSaramaConsumer env _ _ _); [discriminate |].
  destruct (Partitions env _ _ _) as [ps | e] eqn:Hp; [| discriminate].
  intros H; inversion H; subst; clear H. simpl.
  exists ps. rewrite <- app_assoc. auto.
Qed.

(** The stores of [Reset_observable] are the ones [Reset] performs. *)
Lemma Reset_observable_last kc t e kc' t' :
  Reset env kc t = (e, kc', t') ->
  last (Reset_observable env kc t) kc = kc'.
Proof.
  unfold Reset, Reset_observable, rebalance.
  destruct (NewSaramaConsumer env _ _ _).
  - intros H; inversion H; reflexivity.
  - destruct (Partitions env _ _ _);
      intros H; inversion H; reflexivity.
Qed.

End Reset.

(** *** [NewConsumer] *)

Section NewConsumer.

Variable env : Adapter.

Lemma NewConsumer_ClientID cfg0 :
  sarama.ClientID
    (if negb (String.eqb (ClientID cfg0) "")
     then sarama.set_ClientID (ClientID cfg0)
            (match SaramaConfig cfg0 with
             | None => DefaultSaramaConfig env
             | Some sc => sc
             end)
     else match SaramaConfig cfg0 with
          | None => DefaultSaramaConfig env
          | Some sc => sc
          end)
  = resolved_ClientID env cfg0.
Proof.
  unfold resolved_ClientID.
  destruct (String.eqb (ClientID cfg0) ""); reflexivity.
Qed.

(** Validation: the client identifier is looked at before the
    brokers, the brokers before the topic. *)
Lemma NewConsumer_no_brokers cfg0 t :
  Brokers cfg0 = [] ->
  NewConsumer env cfg0 t
  = (Returns (None,
              Some (if String.eqb (resolved_ClientID env cfg0) ""
                    then ErrClientIDEmpty else ErrBrokersEmpty)), t).
Proof.
  intros Hb. unfold NewConsumer. rewrite NewConsumer_ClientID, Hb.
  destruct (String.eqb (resolved_ClientID env cfg0) ""); reflexivity.
Qed.

(** Past validation, an unset [Tracing] is dereferenced. *)
Lemma NewConsumer_nil_Tracing cfg0 t :
  resolved_ClientID env cfg0 <> "" -> Brokers cfg0 <> [] -> Topic cfg0 <> "" ->
  Tracing cfg0 = None ->
  NewConsumer env cfg0 t = (Panics nil_dereference, t).
Proof.
  intros Hc Hb Ht Htr. unfold NewConsumer.
  rewrite NewConsumer_ClientID, Htr.
  rewrite (config_spec.eqb_neq_false Hc), (config_spec.brokers_nonempty Hb),
    (config_spec.eqb_neq_false Ht).
  reflexivity.
Qed.

(** Every offset other than [OffsetNewest] is read as
    [OffsetOldest]; no offset is refused. *)
Lemma NewConsumer_coerces_offset cfg0 t :
  NewConsumer env cfg0 t
  = NewConsumer env
      (with_Offset (if (Offset cfg0 =? OffsetNewest)%Z
                    then OffsetNewest else OffsetOldest) cfg0) t.
Proof.
  unfold NewConsumer, with_Offset; simpl.
  destruct (Z.eqb_spec (Offset cfg0) OffsetNewest) as [-> | Hne];
    reflexivity.
Qed.

(** A consumer that was built is open, healthy, idle, and holds a
    session and an assignment. *)
Lemma NewConsumer_built cfg0 t kc err t' :
  NewConsumer env cfg0 t = (Returns (Some kc, err), t') ->
  err = None /\ closed kc = 0%Z /\ consumeReturned kc = 0%Z
  /\ wg kc = 0%Z /\ partitionConsumers kc = None
  /\ (exists c, getConsumer kc = Some c)
  /\ (exists ps, partitions kc = Some ps).
Proof.
  unfold NewConsumer.
  destruct (String.eqb _ ""); [discriminate |].
  destruct (Nat.eqb _ 0); [discriminate |].
  destruct (String.eqb (Topic cfg0) ""); [discriminate |].
  destruct (Tracing cfg0) as [tr |]; [| discriminate].
  match goal with |- context [Reset env ?k t] =>
    destruct (Reset env k t) as [[e kc1] t1] eqn:HR end.
  destruct e; [discriminate |].
  intros H; inversion H; subst; clear H.
  destruct (Reset_success _ _ _ HR) as (ps & _ & -> & _).
  simpl. repeat split; eauto.
Qed.

(** When the broker accepts the connection and then fails the
    partition query, construction fails and the session it opened is
    neither closed nor kept. *)
Lemma NewConsumer_leaks_session cfg0 tr err :
  resolved_ClientID env cfg0 <> "" -> Brokers cfg0 <> [] -> Topic cfg0 <> "" ->
  Tracing cfg0 = Some tr ->
  let off := if (Offset cfg0 =? OffsetNewest)%Z
             then OffsetNewest else OffsetOldest in
  let sc := match SaramaConfig cfg0 with
            | None => DefaultSaramaConfig env
            | Some sc0 => sc0
            end in
  let sc2 := sarama.set_Consumer_Return_Errors true
               (if negb (String.eqb (ClientID cfg0) "")
                then sarama.set_ClientID (ClientID cfg0) sc else sc) in
  NewSaramaConsumer env [] (Brokers cfg0) (Some sc2) = None ->
  Partitions env [EvNewSaramaConsumer (Brokers cfg0) (Some sc2) (inl 0)]
    0 (Topic cfg0) = inr err ->
  exists t',
    NewConsumer env cfg0 [] = (Returns (None, Some err), t')
    /\ opened t' = [0] /\ session_closes t' = [] /\ left_open t' = [0].
Proof.
  intros Hc Hb Ht Htr off sc sc2 Hopen Hparts.
  unfold NewConsumer.
  rewrite NewConsumer_ClientID, Htr.
  rewrite (config_spec.eqb_neq_false Hc), (config_spec.brokers_nonempty Hb),
    (config_spec.eqb_neq_false Ht).
  unfold Reset, rebalance, close_prior; simpl.
  assert (Hoff : (if negb (Offset cfg0 =? OffsetNewest)%Z
                  then OffsetOldest else Offset cfg0) = off).
  { unfold off. destruct (Z.eqb_spec (Offset cfg0) OffsetNewest) as [-> |];
      reflexivity. }
  rewrite Hoff. fold sc. fold sc2. rewrite Hopen.
  unfold new_session; simpl. unfold Session in *. rewrite Hparts.
  eexists. split; [reflexivity |]. simpl. auto.
Qed.

End NewConsumer.

(** *** [Consume] *)

Section Consume.

Variable env : Adapter.


(** The partition consumers a pass opens: one per partition of the
    assignment, in order, on the session in use. *)
Lemma open_partitions_handles c kc ps : forall pcs t pcs' t',
  open_partitions env (Some c) kc ps pcs t = (Returns (inl pcs'), t') ->
  pcs' = pcs ++ map (fun p => {| pc_session := c; pc_partition := p;
                                 pc_offset := offset kc |}) ps.
Proof.
  induction ps as [| p rest IH]; intros pcs t pcs' t'; simpl.
  - intros H; inversion H; subst. now rewrite app_nil_r.
  - destruct (ConsumePartition env t c (topic kc) p (offset kc));
      [discriminate |].
    intros H. apply IH in H. rewrite H, <- app_assoc. reflexivity.
Qed.



(** The loop touches neither [consumeReturned] nor [kc.wg]. *)
Lemma consume_loop_frame script : forall kc t o kc' t',
  consume_loop env script kc t = (o, kc', t') ->
  consumeReturned kc' = consumeReturned kc /\ wg kc' = wg kc.
Proof.
  induction script as [| b rest IH]; intros kc t o kc' t'; simpl;
    destruct (open_partitions env _ kc _ [] t) as [[[pcs | e] | r |] t1];
    try (intros H; inversion H; subst; simpl; tauto).
  destruct (negb (closed _ =? 0)%Z).
  - intros H; inversion H; subst. destruct b; simpl; tauto.
  - destruct (Reset env _ t1) as [[[e |] kc3] t2] eqn:HR.
    + intros H; inversion H; subst.
      apply Reset_frame in HR. destruct b; simpl in HR; tauto.
    + intros H. apply IH in H.
      apply Reset_frame in HR. destruct b; simpl in HR;
        destruct H as [-> ->]; tauto.
Qed.

(** [Consume] marks the consumer as returned exactly when it
    returns or panics. *)
Lemma Consume_consumeReturned script kc t :
  match Consume env script kc t with
  | (Blocks, kc', _) => consumeReturned kc' = consumeReturned kc
  | (_, kc', _) => consumeReturned kc' = 1%Z
  end.
Proof.
  unfold Consume.
  destruct (consume_loop env script _ t) as [[o kc1] t1] eqn:H.
  apply consume_loop_frame in H. destruct H as [H _]. simpl in H.
  destruct o; simpl; auto.
Qed.

(** [Close] does not touch [consumeReturned]. *)
Lemma Close_frame kc t o kc' t' :
  Close env kc t = (o, kc', t') ->
  consumeReturned kc' = consumeReturned kc.
Proof.
  unfold Close.
  destruct (negb (closed kc =? 0)%Z).
  - intros H; inversion H; reflexivity.
  - destruct (negb (wg _ =? 0)%Z).
    + intros H; inversion H; reflexivity.
    + destruct (getConsumer _); intros H; inversion H; reflexivity.
Qed.

(** One operation: the consumer is healthy afterwards exactly when
    it was healthy before and the operation is not a [Consume] that
    returns. *)
Lemma run_op_IsHealthy o kc t :
  IsHealthy (fst (run_op env o kc t))
  = IsHealthy kc && negb (returns_from_Consume env o kc t).
Proof.
  unfold IsHealthy. destruct o as [script | | |]; simpl.
  - pose proof (Consume_consumeReturned script kc t) as H.
    destruct (Consume env script kc t) as [[[r | r |] kc1] t1];
      simpl; rewrite H; try (simpl; now rewrite andb_false_r).
    now rewrite andb_true_r.
  - destruct (Close env kc t) as [[r kc1] t1] eqn:H.
    apply Close_frame in H. simpl. rewrite H. now rewrite andb_true_r.
  - destruct (Reset env kc t) as [[r kc1] t1] eqn:H.
    apply Reset_frame in H. simpl.
    destruct H as (_ & -> & _). now rewrite andb_true_r.
  - now rewrite andb_true_r.
Qed.

Lemma run_ops_IsHealthy os : forall kc t,
  IsHealthy (fst (run_ops env os kc t))
  = IsHealthy kc && negb (Consume_has_returned env os kc t).
Proof.
  induction os as [| o rest IH]; intros kc t; simpl.
  - now rewrite andb_true_r.
  - pose proof (run_op_IsHealthy o kc t) as H1.
    destruct (run_op env o kc t) as [kc1 t1]. simpl in H1.
    rewrite IH, H1, negb_orb, andb_assoc. reflexivity.
Qed.

Lemma run_ops_app os : forall os' kc t,
  run_ops env (os ++ os') kc t
  = run_ops env os' (fst (run_ops env os kc t)) (snd (run_ops env os kc t)).
Proof.
  induction os as [| o rest IH]; intros os' kc t; simpl; [reflexivity |].
  destruct (run_op env o kc t) as [kc1 t1]. apply IH.
Qed.

End Consume.

(** *** [Close] under concurrent callers *)

Section Close.

Variable env : Adapter.

Lemma close_inv_init c t n kc :
  closed kc = 0%Z -> getConsumer kc = Some c -> (0 <= wg kc)%Z ->
  close_inv env c t n (close_calls n kc t).
Proof.
  intros Hc Hs Hw. constructor; simpl; auto.
  - apply repeat_length.
  - rewrite Hc. simpl. now apply total_repeat_AtCAS.
  - intros _. now apply total_repeat_AtCAS.
  - intros i r H. apply nth_error_In, repeat_spec in H. discriminate.
  - rewrite total_repeat_AtCAS by reflexivity. simpl.
    now rewrite app_nil_r.
  - intros i r H. apply nth_error_In, repeat_spec in H. discriminate.
Qed.

(** The caller at [i] moves from [pc] to [pc']. *)
Ltac moved Hi :=
  repeat match goal with
    | |- context [total ?w (update_nth ?i ?x ?l)] =>
        let H := fresh "Ht" in
        pose proof (total_update_nth w x l _ Hi) as H; simpl in H;
        generalize dependent (total w (update_nth i x l)); intros
    end.

Lemma nth_error_moved (l : list close_pc) i j pc pc' x :
  nth_error l i = Some pc ->
  nth_error (update_nth i pc' l) j = Some x ->
  (j = i /\ x = pc') \/ (j <> i /\ nth_error l j = Some x).
Proof.
  intros Hi Hj. destruct (Nat.eq_dec i j) as [<- | Hne].
  - rewrite (nth_error_update_nth_eq _ _ _ Hi) in Hj.
    inversion Hj; auto.
  - rewrite nth_error_update_nth_neq in Hj by assumption. auto.
Qed.

(** While a caller is between its compare-and-swap and its session
    close, no caller has closed the session. *)
Lemma no_Returned_yet c t0 n s i pc :
  close_inv env c t0 n s ->
  nth_error (callers s) i = Some pc -> in_close pc = 1 ->
  closed_session pc = 0 ->
  total closed_session (callers s) = 0
  /\ forall j r, nth_error (callers s) j <> Some (Returned r).
Proof.
  intros Inv Hi Hin Hcs.
  assert (Hone : total in_close (callers s) <= 1).
  { rewrite (inv_winner Inv). destruct (closed (shared s) =? 0)%Z; lia. }
  assert (Hno : forall j r, nth_error (callers s) j <> Some (Returned r)).
  { intros j r Hj. destruct (Nat.eq_dec i j) as [<- | Hne].
    - rewrite Hi in Hj. inversion Hj; subst. discriminate.
    - pose proof (total_two_le in_close _ Hne Hi Hj) as H.
      rewrite Hin in H. simpl in H. lia. }
  split; [| exact Hno].
  destruct (total closed_session (callers s)) eqn:Htot; [reflexivity |].
  exfalso.
  assert (Hex : exists j x, nth_error (callers s) j = Some x
                            /\ closed_session x <> 0).
  { clear - Htot. unfold total in Htot.
    induction (callers s) as [| z l IH]; simpl in Htot; [discriminate |].
    destruct (closed_session z) eqn:Hz.
    - destruct (IH Htot) as (j & x & Hj & Hx). exists (S j), x. auto.
    - exists 0, z. simpl. split; [reflexivity | lia]. }
  destruct Hex as (j & x & Hj & Hx).
  destruct x; simpl in Hx; try congruence. apply (Hno j r Hj).
Qed.

(** What the callers other than the one that moved are at. *)
Ltac others Hi old :=
  let j := fresh "j" in
  let r := fresh "r" in
  let Hj := fresh "Hj" in
  let H := fresh "H" in
  intros j r Hj;
  destruct (nth_error_moved _ _ _ _ Hi Hj) as [[_ H] | [_ H]];
  [discriminate | eapply old; eauto].

Lemma close_inv_step c t0 n a s :
  close_inv env c t0 n s -> close_inv env c t0 n (step env a s).
Proof.
  intros Inv. destruct a as [i |]; simpl.
  2:{ destruct (Z.ltb_spec 0 (wg (shared s))); [| exact Inv].
      destruct Inv. constructor; simpl; auto. lia. }
  destruct (nth_error (callers s) i) as [pc |] eqn:Hi; [| exact Inv].
  pose proof (@no_Returned_yet c t0 n s i pc Inv Hi) as Hfirst.
  destruct pc as [| | [| pc0 rest] | | | | r0 | r0]; simpl;
    try exact Inv.
  - (* line 149 *)
    destruct (Z.eqb_spec (closed (shared s)) 0) as [Hz | Hz];
      destruct Inv; constructor; simpl; auto;
      try (now rewrite length_update_nth);
      try (others Hi inv_no_panic0); try (others Hi inv_result0).
    + moved Hi. rewrite Hz in inv_winner0. simpl in inv_winner0. lia.
    + intros; discriminate.
    + moved Hi. rewrite inv_closes0. f_equal. f_equal. lia.
    + moved Hi. lia.
    + intros; contradiction.
    + moved Hi. rewrite inv_closes0. f_equal. f_equal. lia.
  - (* line 153 *)
    destruct Inv; constructor; simpl; auto;
      try (now rewrite length_update_nth);
      try (others Hi inv_no_panic0); try (others Hi inv_result0).
    + moved Hi. lia.
    + intros Hz. moved Hi. specialize (inv_early0 Hz). lia.
    + moved Hi. rewrite inv_closes0. f_equal. f_equal. lia.
  - (* line 154, no partition consumer left *)
    destruct Inv; constructor; simpl; auto;
      try (now rewrite length_update_nth);
      try (others Hi inv_no_panic0); try (others Hi inv_result0).
    + moved Hi. lia.
    + intros Hz. moved Hi. specialize (inv_early0 Hz). lia.
    + moved Hi. rewrite inv_closes0. f_equal. f_equal. lia.
  - (* line 156 *)
    destruct (Hfirst eq_refl eq_refl) as [Hzero Hnone].
    destruct Inv; constructor; simpl; auto;
      try (now rewrite length_update_nth);
      try (others Hi inv_no_panic0).
    + moved Hi. lia.
    + intros Hz. moved Hi. specialize (inv_early0 Hz). lia.
    + moved Hi. rewrite session_closes_app, inv_closes0. simpl.
      rewrite app_nil_r. f_equal. f_equal. lia.
    + intros j r Hj.
      destruct (nth_error_moved _ _ _ _ Hi Hj) as [[_ H] | [_ H]];
        [discriminate | exfalso; eapply Hnone; eauto].
  - (* line 159 *)
    destruct (Z.eqb_spec (wg (shared s)) 0) as [Hz | Hz]; [| exact Inv].
    destruct Inv; constructor; simpl; auto;
      try (now rewrite length_update_nth);
      try (others Hi inv_no_panic0); try (others Hi inv_result0).
    + moved Hi. lia.
    + intros Hz'. moved Hi. specialize (inv_early0 Hz'). lia.
    + moved Hi. rewrite inv_closes0. f_equal. f_equal. lia.
  - (* line 160 *)
    destruct (Hfirst eq_refl eq_refl) as [Hzero Hnone].
    rewrite (inv_session Inv).
    destruct Inv; constructor; simpl; auto;
      try (now rewrite length_update_nth);
      try (others Hi inv_no_panic0).
    + moved Hi. lia.
    + intros Hz'. moved Hi. specialize (inv_early0 Hz'). lia.
    + moved Hi. rewrite session_closes_app, inv_closes0. simpl.
      rewrite Hzero in *. simpl.
      replace n0 with 1 by lia. now rewrite app_nil_r.
    + intros j r Hj.
      destruct (nth_error_moved _ _ _ _ Hi Hj) as [[_ H] | [_ H]].
      * inversion H; subst. eauto.
      * exfalso; eapply Hnone; eauto.
Qed.

Lemma close_inv_run c t0 n sched : forall s,
  close_inv env c t0 n s -> close_inv env c t0 n (run env sched s).
Proof.
  unfold run.
  induction sched as [| a rest IH]; intros s Inv; simpl; [exact Inv |].
  apply IH, close_inv_step, Inv.
Qed.

(** **** Every caller can be brought to its end *)

Lemma run_app sched sched' s :
  run env (sched ++ sched') s = run env sched' (run env sched s).
Proof. unfold run. apply fold_left_app. Qed.

Lemma same_but_refl i s : same_but i s s.
Proof. unfold same_but; auto. Qed.

Lemma same_but_trans i s1 s2 s3 :
  same_but i s1 s2 -> same_but i s2 s3 -> same_but i s1 s3.
Proof.
  intros (A1 & B1 & C1 & D1) (A2 & B2 & C2 & D2). unfold same_but.
  repeat split; try congruence.
  intros j Hj. rewrite A2, A1; auto.
Qed.

Lemma step_same_but i s : same_but i s (step env (Caller i) s).
Proof.
  simpl. destruct (nth_error (callers s) i) as [pc |] eqn:Hi;
    [| apply same_but_refl].
  destruct (close_step env pc (shared s) (world s)) as [[[pc' kc'] t'] |]
    eqn:Hs; [| apply same_but_refl].
  unfold same_but; simpl. split; [| split].
  - intros j Hj. apply nth_error_update_nth_neq. congruence.
  - apply length_update_nth.
  - destruct pc as [| | [| pc0 rest] | | | | r0 | r0]; simpl in Hs;
      try discriminate;
      try (inversion Hs; subst; auto; fail).
    + destruct (closed (shared s) =? 0)%Z; inversion Hs; subst; auto.
    + destruct (wg (shared s) =? 0)%Z; inversion Hs; subst; auto.
    + destruct (getConsumer (shared s)); inversion Hs; subst; auto.
Qed.

Lemma run_same_but i k : forall s,
  same_but i s (run env (repeat (Caller i) k) s).
Proof.
  induction k as [| k IH]; intros s; [apply same_but_refl |].
  change (run env (repeat (Caller i) (S k)) s)
    with (run env (repeat (Caller i) k) (step env (Caller i) s)).
  eapply same_but_trans; [apply step_same_but | apply IH].
Qed.

(** Left alone with [kc.wg] at zero, a caller reaches its end within
    [steps_left] steps. *)
Lemma caller_runs_out c t0 n i k : forall s pc,
  close_inv env c t0 n s -> wg (shared s) = 0%Z ->
  nth_error (callers s) i = Some pc ->
  steps_left pc (shared s) <= k ->
  exists pc', nth_error (callers (run env (repeat (Caller i) k) s)) i
              = Some pc'
              /\ returned pc' = true.
Proof.
  induction k as [| k IH]; intros s pc Inv Hw Hi Hk.
  - exists pc. split; [exact Hi |].
    destruct pc as [| | rest | | | | r0 | r0]; simpl in Hk; try lia; auto.
    exfalso. eapply (inv_no_panic Inv); eauto.
  - change (run env (repeat (Caller i) (S k)) s)
      with (run env (repeat (Caller i) k) (step env (Caller i) s)).
    pose proof (close_inv_step (Caller i) Inv) as Inv1.
    pose proof (step_same_but i s) as (_ & _ & Hw1 & Hp1).
    rewrite Hw in Hw1.
    assert (Hnext : exists pc1,
               nth_error (callers (step env (Caller i) s)) i = Some pc1
               /\ steps_left pc1 (shared (step env (Caller i) s)) <= k).
    { unfold steps_left in *. rewrite Hp1. simpl. rewrite Hi.
      destruct pc as [| | [| pc0 rest] | | | | r0 | r0]; simpl in *.
      - destruct (closed (shared s) =? 0)%Z; simpl;
          rewrite (nth_error_update_nth_eq _ _ _ Hi);
          eexists; split; eauto; simpl; lia.
      - rewrite (nth_error_update_nth_eq _ _ _ Hi).
        eexists; split; eauto; simpl; lia.
      - rewrite (nth_error_update_nth_eq _ _ _ Hi).
        eexists; split; eauto; simpl; lia.
      - rewrite (nth_error_update_nth_eq _ _ _ Hi).
        eexists; split; eauto; simpl; lia.
      - rewrite Hw. simpl. rewrite (nth_error_update_nth_eq _ _ _ Hi).
        eexists; split; eauto; simpl; lia.
      - rewrite (inv_session Inv). simpl.
        rewrite (nth_error_update_nth_eq _ _ _ Hi).
        eexists; split; eauto; simpl; lia.
      - eexists; split; eauto; simpl; lia.
      - eexists; split; eauto; simpl; lia.
      - eexists; split; eauto; simpl; lia. }
    destruct Hnext as (pc1 & Hi1 & Hk1).
    exact (IH _ _ Inv1 Hw1 Hi1 Hk1).
Qed.

Lemma steps_left_same pc kc kc' :
  getPartitionConsumers kc' = getPartitionConsumers kc ->
  steps_left pc kc' = steps_left pc kc.
Proof. intros H. unfold steps_left. now rewrite H. Qed.

(** The callers from [start] on, each run to its end in turn. *)
Lemma callers_run_out c t0 n (b : nat -> nat) k : forall start s,
  close_inv env c t0 n s -> wg (shared s) = 0%Z ->
  (forall j pc, start <= j -> nth_error (callers s) j = Some pc ->
                steps_left pc (shared s) <= b j) ->
  (forall j pc, j < start -> nth_error (callers s) j = Some pc ->
                returned pc = true) ->
  forall j pc,
    j < start + k ->
    nth_error
      (callers (run env (flat_map (fun i => repeat (Caller i) (b i))
                           (seq start k)) s)) j = Some pc ->
    returned pc = true.
Proof.
  induction k as [| k IH]; intros start s Inv Hw Hb Hdone j pc Hj Hpc.
  - simpl in Hpc. apply (Hdone j pc); [lia | exact Hpc].
  - simpl in Hpc. rewrite run_app in Hpc.
    set (s1 := run env (repeat (Caller start) (b start)) s) in *.
    pose proof (run_same_but start (b start) s) as (Hoth & Hlen & Hw1 & Hp1).
    fold s1 in Hoth, Hlen, Hw1, Hp1.
    assert (Inv1 : close_inv env c t0 n s1) by (apply close_inv_run, Inv).
    apply (IH (S start) s1 Inv1) with (j := j); try lia; try exact Hpc.
    + intros j' pc' Hj' Hpc'.
      rewrite Hoth in Hpc' by lia.
      rewrite (steps_left_same _ _ _ Hp1). apply Hb; [lia | exact Hpc'].
    + intros j' pc' Hj' Hpc'.
      destruct (Nat.eq_dec j' start) as [-> | Hne].
      * destruct (nth_error (callers s) start) as [pc0 |] eqn:H0.
        -- destruct (@caller_runs_out c t0 n start (b start) s pc0 Inv Hw H0)
             as (pc1 & H1 & Hr).
           ++ apply Hb; [lia | exact H0].
           ++ fold s1 in H1. congruence.
        -- apply nth_error_None in H0.
           assert (nth_error (callers s1) start = None)
             by (apply nth_error_None; lia).
           congruence.
      * rewrite Hoth in Hpc' by exact Hne.
        apply (Hdone j' pc'); [lia | exact Hpc'].
Qed.

(** Once the [Consume] that is running has returned, [kc.wg] is zero
    and the callers are where they were. *)
Lemma Consume_returns_run k : forall s,
  wg (shared s) = Z.of_nat k ->
  let s' := run env (repeat ConsumeReturns k) s in
  wg (shared s') = 0%Z /\ callers s' = callers s
  /\ getPartitionConsumers (shared s') = getPartitionConsumers (shared s).
Proof.
  induction k as [| k IH]; intros s Hw; [simpl; auto |].
  change (run env (repeat ConsumeReturns (S k)) s)
    with (run env (repeat ConsumeReturns k) (step env ConsumeReturns s)).
  cbv zeta.
  assert (H1 : step env ConsumeReturns s
               = {| shared := apply_stores [WgAdd (-1); StoreConsumeReturned 1]
                                (shared s);
                    world := world s; callers := callers s |}).
  { simpl. destruct (Z.ltb_spec 0 (wg (shared s))); [reflexivity | lia]. }
  rewrite H1.
  match goal with |- context [run env _ ?s1] =>
    destruct (IH s1) as (A & B & C); [simpl; lia |] end.
  rewrite A, B, C. auto.
Qed.

(** From every state the callers reach, [finish] brings all of them
    to their end. *)
Lemma finish_all_returned c t0 n s :
  close_inv env c t0 n s ->
  all_returned (run env (finish s) s) = true.
Proof.
  intros Inv. unfold finish. rewrite run_app.
  destruct (Consume_returns_run (Z.to_nat (wg (shared s))) s)
    as (Hw & Hc & Hp).
  { rewrite Z2Nat.id; [reflexivity | apply (inv_wg Inv)]. }
  set (s0 := run env (repeat ConsumeReturns (Z.to_nat (wg (shared s)))) s)
    in *.
  assert (Inv0 : close_inv env c t0 n s0) by (apply close_inv_run, Inv).
  unfold all_returned. apply forallb_nth_error. intros j pc Hj.
  rewrite <- Hc in Hj.
  set (b := fun i : nat =>
              match nth i (callers s0) AtCAS with
              | AtAsyncClose rest => List.length rest + 3
              | _ => List.length (getPartitionConsumers (shared s)) + 5
              end) in Hj.
  assert (Hlt : j < List.length (callers s0)).
  { rewrite (inv_callers Inv0).
    rewrite <- (inv_callers (close_inv_run
                  (flat_map (fun i => repeat (Caller i) (b i))
                     (seq 0 (List.length (callers s0)))) Inv0)).
    apply nth_error_Some. intros Hn.
    cut (Some pc = None); [discriminate |].
    rewrite <- Hj. exact Hn. }
  apply (@callers_run_out c t0 n b (List.length (callers s0)) 0 s0 Inv0 Hw)
    with (j := j); [| | exact Hlt | exact Hj].
  - intros j' pc' _ Hpc'. rewrite (steps_left_same _ _ _ Hp).
    unfold b. rewrite (nth_error_nth _ _ AtCAS Hpc').
    unfold steps_left.
    destruct pc'; simpl; lia.
  - intros j' pc' Hlt'. lia.
Qed.

(** **** Complete runs *)

Lemma total_returned (l : list close_pc) :
  forallb returned l = true ->
  total closed_session l = total in_close l.
Proof.
  unfold total. induction l as [| z l IH]; simpl; [reflexivity |].
  intros H. apply andb_prop in H. destruct H as [Hz Hl].
  rewrite (IH Hl). destruct z; simpl in *; try discriminate; reflexivity.
Qed.

(** When every caller has returned, the session has been closed
    once, by the one caller that returns what the session close
    answered; every other caller has returned [nil] at line 150. *)
Lemma complete_run c t0 n s :
  close_inv env c t0 n s -> 1 <= n -> all_returned s = true ->
  session_closes (world s) = session_closes t0 ++ [c]
  /\ exists i r t',
       nth_error (callers s) i = Some (Returned r)
       /\ world s = t' ++ [EvSessionClose c r]
       /\ r = SessionClose env t' c
       /\ forall j, j <> i -> j < n ->
                    nth_error (callers s) j = Some ReturnedEarly.
Proof.
  intros Inv Hn Hall. unfold all_returned in Hall.
  assert (Hflag : closed (shared s) = 1%Z).
  { destruct (inv_flag Inv) as [Hz | Ho]; [exfalso | exact Ho].
    pose proof (inv_winner Inv) as Hw. rewrite Hz in Hw. simpl in Hw.
    pose proof (inv_early Inv Hz) as He.
    pose proof (inv_callers Inv) as Hl.
    destruct (callers s) as [| z l] eqn:Hcs; [simpl in Hl; lia |].
    unfold total in Hw, He. simpl in Hw, He, Hall.
    destruct z; simpl in *; try discriminate; lia. }
  pose proof (inv_winner Inv) as Hw. rewrite Hflag in Hw. simpl in Hw.
  pose proof (inv_closes Inv) as Hcl.
  rewrite (total_returned _ Hall), Hw in Hcl. simpl in Hcl.
  split; [exact Hcl |].
  destruct (total_one in_close (callers s)) as (i & x & Hi & Hx & Hoth);
    [intros []; simpl; lia | exact Hw |].
  pose proof (nth_error_forallb _ _ _ Hall Hi) as Hr.
  destruct x; simpl in *; try discriminate.
  destruct (inv_result Inv _ Hi) as (t' & Ht' & Hr').
  exists i, r, t'. repeat split; auto.
  intros j Hne Hlt.
  destruct (nth_error (callers s) j) as [y |] eqn:Hj.
  - pose proof (Hoth j y Hne Hj) as Hy.
    pose proof (nth_error_forallb _ _ _ Hall Hj) as Hry.
    destruct y; simpl in *; try discriminate. reflexivity.
  - apply nth_error_None in Hj. rewrite (inv_callers Inv) in Hj. lia.
Qed.

(** At most one session close, whatever the schedule. *)
Lemma at_most_one_close c t0 n s :
  close_inv env c t0 n s ->
  exists k, k <= 1
            /\ session_closes (world s) = session_closes t0 ++ repeat c k.
Proof.
  intros Inv. exists (total closed_session (callers s)).
  split; [| apply (inv_closes Inv)].
  assert (H : total closed_session (callers s)
              <= total in_close (callers s)).
  { clear. unfold total. induction (callers s) as [| z l IH]; simpl; [lia |].
    destruct z; simpl; lia. }
  rewrite (inv_winner Inv) in H.
  destruct (closed (shared s) =? 0)%Z; lia.
Qed.

(** **** One caller, run alone *)

Lemma async_close_run rest : forall kc t,
  run env (repeat (Caller 0) (List.length rest))
    {| shared := kc; world := t; callers := [AtAsyncClose rest] |}
  = {| shared := kc; world := t ++ map EvAsyncClose rest;
       callers := [AtAsyncClose []] |}.
Proof.
  induction rest as [| pc0 rest IH]; intros kc t; simpl.
  - now rewrite app_nil_r.
  - change (run env (Caller 0 :: repeat (Caller 0) (List.length rest)) ?s)
      with (run env (repeat (Caller 0) (List.length rest))
              (step env (Caller 0) s)).
    simpl. rewrite IH, <- app_assoc. reflexivity.
Qed.

(** The function [Close] is the run of a single caller that nothing
    interrupts. *)
Lemma Close_as_schedule kc t :
  wg kc = 0%Z ->
  exists sched,
    let s := run env sched (close_calls 1 kc t) in
    results s = [Some (fst (fst (Close env kc t)))]
    /\ shared s = snd (fst (Close env kc t))
    /\ world s = snd (Close env kc t).
Proof.
  intros Hw. unfold Close, close_calls.
  destruct (Z.eqb_spec (closed kc) 0) as [Hz | Hz]; simpl negb; cbv iota.
  - set (t1 := t ++ map EvAsyncClose (getPartitionConsumers kc)).
    assert (Hrun :
      run env ([Caller 0; Caller 0]
               ++ repeat (Caller 0) (List.length (getPartitionConsumers kc))
               ++ [Caller 0; Caller 0; Caller 0])
        {| shared := kc; world := t; callers := repeat AtCAS 1 |}
      = match getConsumer kc with
        | Some c =>
            {| shared := apply_store (StoreClosed 1) kc;
               world := t1 ++ [EvSessionClose c (SessionClose env t1 c)];
               callers := [Returned (SessionClose env t1 c)] |}
        | None =>
            {| shared := apply_store (StoreClosed 1) kc; world := t1;
               callers := [Panicked nil_dereference] |}
        end).
    { rewrite run_app. simpl repeat.
      change (run env [Caller 0; Caller 0] ?s)
        with (step env (Caller 0) (step env (Caller 0) s)).
      simpl step at 2. rewrite Hz. simpl.
      rewrite run_app.
      change (getPartitionConsumers (apply_store (StoreClosed 1) kc))
        with (getPartitionConsumers kc).
      rewrite async_close_run.
      change (run env [Caller 0; Caller 0; Caller 0] ?s)
        with (step env (Caller 0)
                (step env (Caller 0) (step env (Caller 0) s))).
      simpl. rewrite Hw. simpl. unfold getConsumer.
      destruct (consumer_ kc); reflexivity. }
    eexists. cbv zeta. rewrite Hrun.
    change (wg (apply_store (StoreClosed 1) kc)) with (wg kc). rewrite Hw.
    change (getConsumer (apply_store (StoreClosed 1) kc))
      with (getConsumer kc).
    change (getPartitionConsumers (apply_store (StoreClosed 1) kc))
      with (getPartitionConsumers kc).
    fold t1. simpl negb. cbv iota.
    destruct (getConsumer kc); simpl; auto.
  - exists [Caller 0]. simpl.
    destruct (Z.eqb_spec (closed kc) 0); [contradiction |]. simpl. auto.
Qed.


End Close.

End consumer_spec.

(** * The contract of the package *)

Module contract.

Import consumer_go consumer_spec samples.

(** ** Consume *)



(** C3.  A consumer that [NewConsumer] has built is healthy.  Whatever
    is done with it afterwards, it is healthy exactly as long as no call
    to [Consume] has returned; once unhealthy it stays so; and a call to
    [Consume] leaves it unhealthy when it returns [nil], returns an
    error or panics, and as it found it while the call is still
    blocked. *)
Theorem IsHealthy_until_Consume_returns env cfg0 t0 kc err t :
  NewConsumer env cfg0 t0 = (Returns (Some kc, err), t) ->
  IsHealthy kc = true
  /\ (forall os,
         IsHealthy (fst (run_ops env os kc t))
         = negb (Consume_has_returned env os kc t))
  /\ (forall os os',
         IsHealthy (fst (run_ops env os kc t)) = false ->
         IsHealthy (fst (run_ops env (os ++ os') kc t)) = false)
  /\ (forall script kc1 t1,
         match Consume env script kc1 t1 with
         | (Blocks, kc', _) => IsHealthy kc' = IsHealthy kc1
         | (_, kc', _) => IsHealthy kc' = false
         end).
Proof.
  intros Hnew.
  destruct (NewConsumer_built _ _ _ Hnew) as (_ & _ & Hret & _).
  assert (Hh : IsHealthy kc = true) by (unfold IsHealthy; now rewrite Hret).
  split; [exact Hh |]. split; [| split].
  - intros os. now rewrite run_ops_IsHealthy, Hh.
  - intros os os' Hf. rewrite run_ops_app, run_ops_IsHealthy, Hf. reflexivity.
  - intros script kc1 t1.
    pose proof (Consume_consumeReturned env script kc1 t1) as H.
    unfold IsHealthy.
    destruct (Consume env script kc1 t1) as [[[r | r |] kc'] t'];
      rewrite H; reflexivity.
Qed.

Lemma IsHealthy_until_Consume_returns_witness :
  let kc := fst (built steady) in
  let t := snd (built steady) in
  IsHealthy kc = true
  /\ IsHealthy (fst (run_ops steady [OpClose; OpIsHealthy; OpReset] kc t))
     = true
  /\ IsHealthy (fst (run_ops steady [OpConsume [true]; OpReset] kc t)) = false
  /\ IsHealthy (fst (run_ops one_session [OpConsume [false]; OpClose]
                       (fst (built one_session)) (snd (built one_session))))
     = false.
Proof.
  pose proof (@IsHealthy_until_Consume_returns steady
                (consumer_cfg OffsetNewest (Some true)) []
                (fst (built steady)) None (snd (built steady)) eq_refl)
    as (H1 & H2 & _).
  pose proof (@IsHealthy_until_Consume_returns one_session
                (consumer_cfg OffsetNewest (Some true)) []
                (fst (built one_session)) None (snd (built one_session))
                eq_refl)
    as (_ & H3 & _).
  split; [exact H1 |]. split; [| split].
  - exact (eq_trans (H2 [OpClose; OpIsHealthy; OpReset]) eq_refl).
  - exact (eq_trans (H2 [OpConsume [true]; OpReset]) eq_refl).
  - exact (eq_trans (H3 [OpConsume [false]; OpClose]) eq_refl).
Defined.

(** ** Close *)

(** C2, as the code has it.  Let [n >= 1] callers enter [Close] on a
    consumer that is open and holds the session [c].  Under every
    schedule: no caller panics; the session is closed at most once; the
    schedule can be continued so that every caller returns (once the
    [Consume] that is running has returned); and when every caller has
    returned, the session has been closed exactly once, the caller that
    won the compare-and-swap has returned what the session close
    answered, and every other caller has returned [nil]. *)
Theorem Close_concurrent env n kc t c sched :
  closed kc = 0%Z -> getConsumer kc = Some c -> (0 <= wg kc)%Z -> 1 <= n ->
  let s := run env sched (close_calls n kc t) in
  (forall i reason, nth_error (callers s) i <> Some (Panicked reason))
  /\ (exists k, k <= 1
                /\ session_closes (world s) = session_closes t ++ repeat c k)
  /\ all_returned (run env (finish s) s) = true
  /\ if all_returned s
     then session_closes (world s) = session_closes t ++ [c]
          /\ exists i r t',
               nth_error (callers s) i = Some (Returned r)
               /\ world s = t' ++ [EvSessionClose c r]
               /\ r = SessionClose env t' c
               /\ forall j, j <> i -> j < n ->
                            nth_error (callers s) j = Some ReturnedEarly
     else True.
Proof.
  intros Hc Hs Hw Hn s.
  assert (Inv : close_inv env c t n s).
  { apply close_inv_run, close_inv_init; assumption. }
  split; [exact (inv_no_panic Inv) |].
  split; [exact (at_most_one_close Inv) |].
  split; [exact (finish_all_returned Inv) |].
  destruct (all_returned s) eqn:Hall; [| exact I].
  exact (complete_run Inv Hn Hall).
Qed.

Lemma Close_concurrent_witness :
  let kc := fst (built close_fails) in
  let t := snd (built close_fails) in
  let s := run close_fails
             [Caller 1; Caller 0; Caller 1; Caller 1; Caller 1; Caller 1]
             (close_calls 2 kc t) in
  results s = [Some (Returns None);
               Some (Returns (Some (ErrSarama "close: broken pipe")))]
  /\ session_closes (world s) = session_closes t ++ [0].
Proof.
  split; [reflexivity |].
  exact (proj1 (proj2 (proj2 (proj2
           (@Close_concurrent close_fails 2 (fst (built close_fails))
              (snd (built close_fails)) 0
              [Caller 1; Caller 0; Caller 1; Caller 1; Caller 1; Caller 1]
              eq_refl eq_refl (Z.le_refl 0) (le_S 1 1 (le_n 1))))))).
Defined.

(** C2 as stated fails: when the session close reports an error, the
    call that closes the session returns it and the other call returns
    [nil], whether the two calls follow each other or interleave. *)
Lemma Close_outcomes_differ :
  let kc := fst (built close_fails) in
  let t := snd (built close_fails) in
  let outcomes := fst (fst (close_n close_fails 2 kc t)) in
  outcomes = [Returns (Some (ErrSarama "close: broken pipe")); Returns None]
  /\ ~ (forall o1 o2, In o1 outcomes -> In o2 outcomes -> o1 = o2)
  /\ results (run close_fails
                [Caller 0; Caller 1; Caller 0; Caller 0; Caller 0; Caller 0]
                (close_calls 2 kc t))
     = [Some (Returns (Some (ErrSarama "close: broken pipe")));
        Some (Returns None)].
Proof.
  split; [reflexivity |]. split; [| reflexivity].
  intros H.
  specialize (H (Returns (Some (ErrSarama "close: broken pipe")))
                (Returns None)).
  simpl in H. assert (E := H (or_introl eq_refl) (or_intror (or_introl eq_refl))).
  discriminate E.
Qed.

(** ** Reset *)

(** C4, as the code has it.  The session, the assignment and the
    partition consumers are three values, each replaced whole by a store
    of its own.  A successful [Reset] stores the new session first and
    the new assignment second, and leaves the partition consumers alone
    ([Consume] stores them once it has opened the new ones): a reader
    loading the three values sees, one after the other, the old
    session with the old assignment, the new session with the old
    assignment, and the new session with the new assignment. *)
Theorem Reset_stores_one_by_one env kc t kc' t' :
  Reset env kc t = (None, kc', t') ->
  exists c ps,
    map snapshot (Reset_observable env kc t)
    = [(getConsumer kc, getPartitions kc, getPartitionConsumers kc);
       (Some c, getPartitions kc, getPartitionConsumers kc);
       (Some c, ps, getPartitionConsumers kc)]
    /\ snapshot kc' = (Some c, ps, getPartitionConsumers kc).
Proof.
  intros HR.
  pose proof (Reset_observable_last _ _ _ HR) as Hlast.
  unfold Reset, Reset_observable, rebalance in *.
  destruct (NewSaramaConsumer env _ _ _); [discriminate |].
  destruct (Partitions env _ _ _) as [ps | e]; [| discriminate].
  inversion HR; subst; clear HR.
  eexists. exists ps. split; reflexivity.
Qed.

Lemma Reset_stores_one_by_one_witness :
  let kc := fst (built steady) in
  let t := snd (built steady) in
  fst (fst (Reset steady kc t)) = None
  /\ exists c ps,
       map snapshot (Reset_observable steady kc t)
       = [(Some 0, [0; 1]%Z, []); (Some c, [0; 1]%Z, []); (Some c, ps, [])].
Proof.
  split; [reflexivity |].
  destruct (@Reset_stores_one_by_one steady (fst (built steady))
              (snd (built steady)) _ _ eq_refl) as (c & ps & H & _).
  exists c, ps. exact H.
Defined.

(** C4 as stated fails: during a rebalance a reader can load the new
    session together with the old assignment, a combination that is
    neither the state before [Reset] nor the state after it. *)
Lemma Reset_half_updated :
  let kc := fst (built steady) in
  let t := snd (built steady) in
  let kc' := snd (fst (Reset steady kc t)) in
  snapshot kc = (Some 0, [0; 1]%Z, [])
  /\ snapshot kc' = (Some 1, [2; 3]%Z, [])
  /\ exists mid,
       In mid (Reset_observable steady kc t)
       /\ snapshot mid = (Some 1, [0; 1]%Z, [])
       /\ snapshot mid <> snapshot kc /\ snapshot mid <> snapshot kc'.
Proof.
  split; [reflexivity |]. split; [reflexivity |].
  eexists. split; [right; left; reflexivity |].
  split; [reflexivity |]. split; discriminate.
Qed.

(** ** NewConsumer *)

(** C5: the code at the failing input.  The broker accepts the
    connection and fails the partition query: [NewConsumer] returns a
    nil handle and the error, and the session it opened has not been
    closed. *)
Theorem NewConsumer_leaves_session_open :
  exists t,
    NewConsumer no_metadata (consumer_cfg OffsetNewest (Some true)) []
    = (Returns (None, Some (ErrSarama "topic metadata unavailable")), t)
    /\ opened t = [0] /\ session_closes t = [] /\ left_open t = [0].
Proof. eexists. split; [reflexivity |]. repeat split. Qed.

(** C7: the code at the failing input.  A configuration that passes
    validation and leaves [Tracing] unset makes [NewConsumer] panic,
    whatever the broker. *)
Theorem NewConsumer_unset_Tracing_panics :
  forall env t,
    NewConsumer env (consumer_cfg OffsetNewest None) t
    = (Panics nil_dereference, t).
Proof.
  intros env t. apply NewConsumer_nil_Tracing; simpl; try discriminate.
  reflexivity.
Qed.

(** ** Validation *)

(** C6, as the code has it.  With brokers, topic and client identifier
    in place, [ConsumerConfig.NewSaramaConfig] answers [ErrOffsetInvalid]
    to every offset string other than the empty one, ["oldest"] and
    ["newest"], and the empty string gives what ["oldest"] gives.
    [NewConsumer] does not call it: its offset is a number, and every
    number other than [OffsetNewest] is read as [OffsetOldest]. *)
Theorem offset_policy (cfg : config_go.ConsumerConfig) env cfg0 t :
  config_go.Brokers cfg <> [] -> config_go.Topic cfg <> "" ->
  config_go.ClientID cfg <> "" ->
  config_go.NewSaramaConfig cfg
  = (let c := sarama.set_Consumer_Return_Errors true sarama.NewConfig in
     if String.eqb (config_go.Offset cfg) ""
        || String.eqb (config_go.Offset cfg) "oldest"
     then inl (sarama.set_Consumer_Offsets_Initial sarama.OffsetOldest c)
     else if String.eqb (config_go.Offset cfg) "newest"
     then inl (sarama.set_Consumer_Offsets_Initial sarama.OffsetNewest c)
     else inr ErrOffsetInvalid)
  /\ config_go.NewSaramaConfig (config_go.with_Offset "" cfg)
     = config_go.NewSaramaConfig (config_go.with_Offset "oldest" cfg)
  /\ NewConsumer env cfg0 t
     = NewConsumer env
         (with_Offset (if (Offset cfg0 =? OffsetNewest)%Z
                       then OffsetNewest else OffsetOldest) cfg0) t.
Proof.
  intros Hb Ht Hc. split; [| split].
  - apply config_spec.NewSaramaConfig_valid; assumption.
  - apply config_spec.NewSaramaConfig_default_offset.
  - apply NewConsumer_coerces_offset.
Qed.

Lemma offset_policy_witness :
  config_go.NewSaramaConfig (yaml_cfg ["b1:9092"] "latest")
  = inr ErrOffsetInvalid
  /\ config_go.NewSaramaConfig (yaml_cfg ["b1:9092"] "")
     = config_go.NewSaramaConfig (yaml_cfg ["b1:9092"] "oldest")
  /\ NewConsumer steady (consumer_cfg 5 (Some true)) []
     = NewConsumer steady (consumer_cfg OffsetOldest (Some true)) [].
Proof.
  pose (H := fun o =>
          @offset_policy (yaml_cfg ["b1:9092"] o) steady
            (consumer_cfg 5 (Some true)) []
            (fun E => @eq_ind _ ["b1:9092"]
                        (fun l => match l with [] => False | _ => True end)
                        I [] E)
            (fun E => @eq_ind _ "t"
                        (fun s => match s with
                                  | EmptyString => False | _ => True end)
                        I "" E)
            (fun E => @eq_ind _ "c1"
                        (fun s => match s with
                                  | EmptyString => False | _ => True end)
                        I "" E)).
  split; [exact (proj1 (H "latest")) |].
  split; [exact (proj1 (proj2 (H ""))) | exact (proj2 (proj2 (H "")))].
Defined.

(** C6 as stated fails: [NewConsumer] builds a consumer for an offset
    that is neither oldest nor newest, and without brokers
    [NewSaramaConfig] answers [ErrBrokersEmpty] to an unknown offset. *)
Lemma offset_not_refused :
  (exists kc t,
      NewConsumer steady (consumer_cfg 5 (Some true)) []
      = (Returns (Some kc, None), t)
      /\ offset kc = OffsetOldest)
  /\ config_go.NewSaramaConfig (yaml_cfg [] "latest") = inr ErrBrokersEmpty.
Proof.
  split; [| reflexivity].
  eexists. eexists. split; reflexivity.
Qed.

(** C8, as the code has it.  Without brokers, [InitTopicAsyncProducer]
    returns a nil handle and [ErrBrokersEmpty]; [NewConsumer] returns a
    nil handle too, with [ErrBrokersEmpty] when the client identifier it
    resolves is not empty and with [ErrClientIDEmpty] when it is.
    Neither calls the broker. *)
Theorem empty_brokers new (pcfg : producer_go.ProducerConfig) pt env cfg0 t :
  producer_go.Brokers pcfg = [] -> Brokers cfg0 = [] ->
  producer_go.InitTopicAsyncProducer new pcfg pt
  = ((None, Some ErrBrokersEmpty), pt)
  /\ NewConsumer env cfg0 t
     = (Returns (None,
                 Some (if String.eqb (resolved_ClientID env cfg0) ""
                       then ErrClientIDEmpty else ErrBrokersEmpty)), t).
Proof.
  intros Hp Hc. split.
  - unfold producer_go.InitTopicAsyncProducer. rewrite Hp. reflexivity.
  - apply NewConsumer_no_brokers. exact Hc.
Qed.

Lemma empty_brokers_witness :
  producer_go.InitTopicAsyncProducer new_willing
    {| producer_go.Brokers := []; producer_go.Logger := None |} []
  = ((None, Some ErrBrokersEmpty), [])
  /\ NewConsumer steady
       {| Brokers := []; Topic := ""; ClientID := "c1"; Offset := 7;
          Tracing := None; SaramaConfig := None |} []
     = (Returns (None, Some ErrBrokersEmpty), []).
Proof.
  exact (@empty_brokers new_willing
           {| producer_go.Brokers := []; producer_go.Logger := None |} []
           steady
           {| Brokers := []; Topic := ""; ClientID := "c1"; Offset := 7;
              Tracing := None; SaramaConfig := None |} []
           eq_refl eq_refl).
Defined.

(** C8 as stated fails: with no brokers and no client identifier,
    [NewConsumer] answers [ErrClientIDEmpty]. *)
Lemma empty_brokers_empty_ClientID :
  Brokers anonymous_cfg = []
  /\ NewConsumer steady anonymous_cfg []
     = (Returns (None, Some ErrClientIDEmpty), []).
Proof. split; reflexivity. Qed.

(** ** The producer *)

(** C9.  Once [Close] has returned, [Publish] returns at once, whatever
    happened in between: it hands one warning to the logger and sends
    nothing to the input channel.  So does every sequence of calls. *)
Theorem Publish_after_Close tp0 t0 err tp t1 :
  producer_go.Close tp0 t0 = (err, tp, t1) ->
  (forall msg t,
      producer_go.Publish tp msg t
      = (Returns tt,
         t ++ [producer_go.EvLog (producer_go.Logger (producer_go.cfg tp))
                 producer_go.warn_closed]))
  /\ (forall msgs t,
         fst (producer_go.publish_all tp msgs t)
         = map (fun _ => Returns tt) msgs
         /\ producer_go.inputs (snd (producer_go.publish_all tp msgs t))
            = producer_go.inputs t
         /\ List.length (snd (producer_go.publish_all tp msgs t))
            = List.length t + List.length msgs).
Proof.
  intros HC.
  destruct (producer_spec.Close_sets_closed HC) as (Hcl & _ & _).
  assert (Hne : producer_go.closed tp <> 0%Z) by (rewrite Hcl; discriminate).
  split.
  - intros msg t. apply producer_spec.Publish_closed. exact Hne.
  - intros msgs t. rewrite (@producer_spec.publish_all_closed tp msgs t Hne).
    simpl. split; [reflexivity |]. split.
    + rewrite producer_spec.inputs_app, producer_spec.inputs_warnings.
      apply app_nil_r.
    + rewrite length_app, length_map. reflexivity.
Qed.

Lemma Publish_after_Close_witness :
  let tp0 := fst (built_producer None) in
  let t0 := snd (built_producer None) in
  let tp := snd (fst (producer_go.Close tp0 t0)) in
  let t1 := snd (producer_go.Close tp0 t0) in
  producer_go.Publish tp0 sample_message t0
  = (Returns tt,
     t0 ++ [producer_go.EvInput
              {| producer_go.sm_Topic := "t"; producer_go.sm_Key := None;
                 producer_go.sm_Value := [Byte.x01; Byte.x02; Byte.x03];
                 producer_go.sm_Timestamp := 0 |}])
  /\ producer_go.Publish tp sample_message t1
     = (Returns tt,
        t1 ++ [producer_go.EvLog (Some producer_go.ErrorWithSentryWrapper)
                 producer_go.warn_closed]).
Proof.
  split; [reflexivity |].
  exact (proj1 (@Publish_after_Close (fst (built_producer None))
                  (snd (built_producer None)) _ _ _ eq_refl)
           sample_message _).
Defined.

(** C10: the code at the failing input.  Whatever logger the
    configuration supplies, the producer that is built logs through
    [ErrorWithSentryWrapper]: the goroutine draining the error channel
    is started with it, and so every error drained is logged with it. *)
Theorem supplied_logger_is_dropped :
  forall (name : string) (errs : list error),
    let supplied := Some (producer_go.CustomWrapper name) in
    let tp := fst (built_producer supplied) in
    let t := snd (built_producer supplied) in
    let sentry := Some producer_go.ErrorWithSentryWrapper in
    producer_go.Logger (producer_go.cfg tp) = sentry
    /\ t = [producer_go.EvNewAsyncProducer ["b1:9092"] (producer_go.sc tp)
              None;
            producer_go.EvGoErrorDrain sentry]
    /\ filter producer_go.is_log (producer_go.error_drain sentry errs t)
       = map (fun e => producer_go.EvLog sentry (Error e)) errs.
Proof.
  intros name errs supplied tp t sentry.
  split; [reflexivity |]. split; [reflexivity |].
  rewrite producer_spec.error_drain_logs. reflexivity.
Qed.

End contract.

(** * Further properties of the package *)

Unset Implicit Arguments.

Module laws.

Import consumer_go consumer_spec samples workers_go observe producer_more.

(** ** config.go *)

Lemma eqb_empty (A : Type) (l : list A) :
  Nat.eqb (List.length l) 0 = true <-> l = [].
Proof. destruct l; simpl; split; congruence. Qed.

(** [ConsumerConfig.NewSaramaConfig] returns a configuration exactly when
    brokers, topic and client identifier are not empty and the offset is
    empty, ["oldest"] or ["newest"]; the configuration is then the one of
    [sarama.NewConfig()] with [Consumer.Return.Errors] set and the
    initial offset [OffsetNewest] for ["newest"], [OffsetOldest]
    otherwise. *)
Theorem NewSaramaConfig_succeeds_iff (cfg : config_go.ConsumerConfig) :
  ((exists c, config_go.NewSaramaConfig cfg = inl c)
   <-> (config_go.Brokers cfg <> [] /\ config_go.Topic cfg <> ""
        /\ config_go.ClientID cfg <> ""
        /\ (config_go.Offset cfg = "" \/ config_go.Offset cfg = "oldest"
            \/ config_go.Offset cfg = "newest")))
  /\ forall c,
       config_go.NewSaramaConfig cfg = inl c ->
       c = sarama.set_Consumer_Offsets_Initial
             (if String.eqb (config_go.Offset cfg) "newest"
              then sarama.OffsetNewest else sarama.OffsetOldest)
             (sarama.set_Consumer_Return_Errors true sarama.NewConfig).
Proof.
  unfold config_go.NewSaramaConfig.
  destruct (Nat.eqb (List.length (config_go.Brokers cfg)) 0) eqn:Hb.
  { apply eqb_empty in Hb. split; [| discriminate].
    split; [intros [c H]; discriminate | tauto]. }
  assert (Hb' : config_go.Brokers cfg <> []).
  { intros H. apply eqb_empty in H. congruence. }
  destruct (String.eqb_spec (config_go.Topic cfg) "") as [Ht | Ht].
  { split; [| discriminate]. split; [intros [c H]; discriminate | tauto]. }
  destruct (String.eqb_spec (config_go.ClientID cfg) "") as [Hc | Hc].
  { split; [| discriminate]. split; [intros [c H]; discriminate | tauto]. }
  destruct (String.eqb_spec (config_go.Offset cfg) "") as [Ho | Ho].
  { rewrite Ho. simpl. split; [| intros c H; inversion H; reflexivity].
    split; eauto 10. }
  destruct (String.eqb_spec (config_go.Offset cfg) "oldest") as [Ho1 | Ho1].
  { rewrite Ho1. simpl. split; [| intros c H; inversion H; reflexivity].
    split; eauto 10. }
  destruct (String.eqb_spec (config_go.Offset cfg) "newest") as [Ho2 | Ho2].
  { split; [| intros c H; inversion H; reflexivity]. split; eauto 10. }
  split; [| discriminate].
  split; [intros [c H]; discriminate | intros (_ & _ & _ & [H | [H | H]])];
    contradiction.
Qed.

Lemma NewSaramaConfig_succeeds_iff_witness :
  exists c, config_go.NewSaramaConfig (yaml_cfg ["b1:9092"] "newest") = inl c
            /\ sarama.Consumer_Offsets_Initial c = sarama.OffsetNewest
            /\ sarama.Consumer_Return_Errors c = true.
Proof.
  destruct (proj2 (proj1 (NewSaramaConfig_succeeds_iff
                            (yaml_cfg ["b1:9092"] "newest"))))
    as [c Hc].
  - repeat split; try discriminate. right. right. reflexivity.
  - exists c. split; [exact Hc |].
    rewrite (proj2 (NewSaramaConfig_succeeds_iff _) c Hc). split; reflexivity.
Defined.

(** Which error [ConsumerConfig.NewSaramaConfig] returns: the first of
    brokers, topic, client identifier and offset that is not
    acceptable. *)
Theorem NewSaramaConfig_error (cfg : config_go.ConsumerConfig) :
  (config_go.NewSaramaConfig cfg = inr ErrBrokersEmpty
   <-> config_go.Brokers cfg = [])
  /\ (config_go.NewSaramaConfig cfg = inr ErrTopicEmpty
      <-> config_go.Brokers cfg <> [] /\ config_go.Topic cfg = "")
  /\ (config_go.NewSaramaConfig cfg = inr ErrClientIDEmpty
      <-> config_go.Brokers cfg <> [] /\ config_go.Topic cfg <> ""
          /\ config_go.ClientID cfg = "")
  /\ (config_go.NewSaramaConfig cfg = inr ErrOffsetInvalid
      <-> config_go.Brokers cfg <> [] /\ config_go.Topic cfg <> ""
          /\ config_go.ClientID cfg <> ""
          /\ config_go.Offset cfg <> "" /\ config_go.Offset cfg <> "oldest"
          /\ config_go.Offset cfg <> "newest").
Proof.
  unfold config_go.NewSaramaConfig.
  destruct (Nat.eqb (List.length (config_go.Brokers cfg)) 0) eqn:Hb.
  { apply eqb_empty in Hb. repeat split; try tauto; try discriminate;
      intros; tauto. }
  assert (Hb' : config_go.Brokers cfg <> []).
  { intros H. apply eqb_empty in H. congruence. }
  destruct (String.eqb_spec (config_go.Topic cfg) "") as [Ht | Ht].
  { repeat split; try tauto; try discriminate; intros; tauto. }
  destruct (String.eqb_spec (config_go.ClientID cfg) "") as [Hc | Hc].
  { repeat split; try tauto; try discriminate; intros; tauto. }
  destruct (String.eqb_spec (config_go.Offset cfg) "") as [Ho | Ho].
  { repeat split; try tauto; try discriminate; intros; tauto. }
  destruct (String.eqb_spec (config_go.Offset cfg) "oldest") as [Ho1 | Ho1].
  { repeat split; try tauto; try discriminate; intros; tauto. }
  destruct (String.eqb_spec (config_go.Offset cfg) "newest") as [Ho2 | Ho2].
  { repeat split; try tauto; try discriminate; intros; tauto. }
  repeat split; try tauto; try discriminate; intros; tauto.
Qed.

Lemma NewSaramaConfig_error_witness :
  config_go.NewSaramaConfig (yaml_cfg [] "latest") = inr ErrBrokersEmpty
  /\ config_go.NewSaramaConfig (yaml_cfg ["b1:9092"] "latest")
     = inr ErrOffsetInvalid.
Proof.
  split.
  - apply (proj2 (proj1 (NewSaramaConfig_error (yaml_cfg [] "latest")))).
    reflexivity.
  - apply (proj2 (proj2 (proj2 (proj2
             (NewSaramaConfig_error (yaml_cfg ["b1:9092"] "latest")))))).
    repeat split; discriminate.
Defined.

(** ** producer.go *)

(** [InitTopicAsyncProducer] returns a handle or an error, never both
    and never neither.  The error is [ErrBrokersEmpty] when there are no
    brokers, and then sarama is not called; otherwise it is the error of
    [sarama.NewAsyncProducer].  The goroutine draining the error channel
    is started only when a handle is returned, and the handle is open
    and holds the producer sarama returned. *)
Theorem InitTopicAsyncProducer_result
        (new : producer_go.Sarama) (cfg0 : producer_go.ProducerConfig)
        (t : producer_go.trace) :
  match producer_go.InitTopicAsyncProducer new cfg0 t with
  | ((Some tp, None), t') =>
      producer_go.Brokers cfg0 <> []
      /\ new t (producer_go.Brokers cfg0) (producer_go.sc tp)
         = inl (producer_go.Producer tp)
      /\ producer_go.closed tp = 0%Z
      /\ producer_go.Brokers (producer_go.cfg tp) = producer_go.Brokers cfg0
      /\ t' = t ++ [producer_go.EvNewAsyncProducer
                      (producer_go.Brokers cfg0) (producer_go.sc tp) None;
                    producer_go.EvGoErrorDrain
                      (producer_go.Logger (producer_go.cfg tp))]
  | ((None, Some err), t') =>
      filter is_drain t' = filter is_drain t
      /\ ((producer_go.Brokers cfg0 = [] /\ err = ErrBrokersEmpty /\ t' = t)
          \/ (producer_go.Brokers cfg0 <> []
              /\ exists sc0,
                   new t (producer_go.Brokers cfg0) sc0 = inr err
                   /\ t' = t ++ [producer_go.EvNewAsyncProducer
                                   (producer_go.Brokers cfg0) sc0 (Some err)]))
  | _ => False
  end.
Proof.
  unfold producer_go.InitTopicAsyncProducer.
  destruct (Nat.eqb (List.length (producer_go.Brokers cfg0)) 0) eqn:Hb.
  { apply eqb_empty in Hb. split; [reflexivity | left; auto]. }
  assert (Hb' : producer_go.Brokers cfg0 <> []).
  { intros H. apply eqb_empty in H. congruence. }
  simpl.
  destruct (new t (producer_go.Brokers cfg0) _) as [producer | err] eqn:Hn.
  - simpl. repeat split; auto; try exact Hn.
    now rewrite <- app_assoc.
  - split.
    + rewrite filter_app. simpl. apply app_nil_r.
    + right. split; [exact Hb' |]. eexists. split; [exact Hn | reflexivity].
Qed.

Lemma input_closed_inputs (t : producer_go.trace)
      (ms : list producer_go.ProducerMessage) :
  producer_go.input_closed
    (t ++ map (fun m => producer_go.EvInput (sarama_message m)) ms)
  = producer_go.input_closed t.
Proof.
  rewrite producer_spec.input_closed_app.
  assert (H : producer_go.input_closed
                (map (fun m => producer_go.EvInput (sarama_message m)) ms)
              = false).
  { induction ms; simpl; auto. }
  rewrite H. apply orb_false_r.
Qed.

(** On a producer that has not been closed and whose input channel
    takes every message, a sequence of calls to [Publish] returns every
    time and puts exactly the messages published into the channel, in
    the order of the calls, each with its topic, payload and timestamp,
    and with a key only when the key published is not empty. *)
Theorem Publish_delivers_in_order
        (tp : producer_go.TopicAsyncProducer)
        (msgs : list producer_go.ProducerMessage) (t : producer_go.trace) :
  producer_go.closed tp = 0%Z ->
  producer_go.input_closed t = false ->
  (forall t', producer_go.InputReady (producer_go.Producer tp) t' = true) ->
  producer_go.publish_all tp msgs t
  = (map (fun _ => Returns tt) msgs,
     t ++ map (fun m => producer_go.EvInput (sarama_message m)) msgs)
  /\ Forall (fun m =>
               producer_go.sm_Key (sarama_message m)
               = match producer_go.Key m with
                 | [] => None
                 | _ => Some (producer_go.Key m)
                 end) msgs.
Proof.
  intros Hc Hopen Hready. split.
  - revert t Hopen. induction msgs as [| m rest IH]; intros t Hopen; simpl.
    + now rewrite app_nil_r.
    + unfold producer_go.Publish. rewrite Hc, Hopen, Hready. simpl.
      fold (sarama_message m).
      rewrite IH.
      * rewrite <- app_assoc. reflexivity.
      * pose proof (input_closed_inputs t [m]) as Hm. simpl in Hm.
        rewrite Hm. exact Hopen.
  - apply Forall_forall. intros m _. unfold sarama_message. simpl.
    destruct (producer_go.Key m); reflexivity.
Qed.

Lemma Publish_delivers_in_order_witness :
  let tp := fst (built_producer None) in
  let t := snd (built_producer None) in
  producer_go.inputs
    (snd (producer_go.publish_all tp [sample_message; sample_message] t))
  = [producer_go.EvInput (sarama_message sample_message);
     producer_go.EvInput (sarama_message sample_message)].
Proof.
  cbv zeta.
  rewrite (proj1 (Publish_delivers_in_order (fst (built_producer None))
                    [sample_message; sample_message]
                    (snd (built_producer None))
                    eq_refl eq_refl (fun _ => eq_refl))).
  reflexivity.
Defined.

(** The goroutine draining the error channel hands every error to the
    logger once and adds one to the counter once, in the order the
    errors arrive, and does nothing else. *)
Theorem error_drain_trace
        (logger : option producer_go.Wrapper) (errs : list error)
        (t : producer_go.trace) :
  producer_go.error_drain logger errs t
  = t ++ flat_map
           (fun e => [producer_go.EvLog logger (Error e);
                      producer_go.EvCounterAdd "kafka.producer.errors" 1])
           errs
  /\ List.length (filter is_counter (producer_go.error_drain logger errs t))
     = List.length (filter is_counter t) + List.length errs.
Proof.
  assert (H : forall t,
             producer_go.error_drain logger errs t
             = t ++ flat_map
                      (fun e =>
                         [producer_go.EvLog logger (Error e);
                          producer_go.EvCounterAdd "kafka.producer.errors" 1])
                      errs).
  { induction errs as [| e rest IH]; intros u; simpl.
    - now rewrite app_nil_r.
    - rewrite IH, <- app_assoc. reflexivity. }
  split; [apply H |].
  rewrite H, filter_app, length_app. f_equal.
  clear. induction errs as [| e rest IH]; simpl; auto.
Qed.




(** ** consumer.go: [NewConsumer] *)

(** A configuration that fails validation gets a nil handle and the
    error of the first check it fails (client identifier, then brokers,
    then topic); the broker is not contacted, and [Tracing] is not
    looked at. *)
Theorem NewConsumer_validation (env : Adapter) (cfg0 : ConsumerConfig)
        (t : trace) :
  resolved_ClientID env cfg0 = "" \/ Brokers cfg0 = [] \/ Topic cfg0 = "" ->
  NewConsumer env cfg0 t
  = (Returns (None,
              Some (if String.eqb (resolved_ClientID env cfg0) ""
                    then ErrClientIDEmpty
                    else if Nat.eqb (List.length (Brokers cfg0)) 0
                    then ErrBrokersEmpty
                    else ErrTopicEmpty)), t).
Proof.
  intros H. unfold NewConsumer. rewrite NewConsumer_ClientID.
  destruct (String.eqb_spec (resolved_ClientID env cfg0) "") as [Hc | Hc];
    [reflexivity |].
  destruct (Nat.eqb (List.length (Brokers cfg0)) 0) eqn:Hb; [reflexivity |].
  destruct (String.eqb_spec (Topic cfg0) "") as [Ht | Ht]; [reflexivity |].
  exfalso. destruct H as [H | [H | H]]; try contradiction.
  apply eqb_empty in H. congruence.
Qed.

Lemma NewConsumer_validation_witness :
  NewConsumer steady
    {| Brokers := ["b1:9092"]; Topic := ""; ClientID := "c1"; Offset := 0;
       Tracing := None; SaramaConfig := None |} []
  = (Returns (None, Some ErrTopicEmpty), []).
Proof.
  exact (NewConsumer_validation steady
           {| Brokers := ["b1:9092"]; Topic := ""; ClientID := "c1";
              Offset := 0; Tracing := None; SaramaConfig := None |} []
           (or_intror (or_intror eq_refl))).
Defined.

(** The consumer [NewConsumer] builds: no error comes with it; its topic
    and its tracing flag are the ones configured; its offset is
    [OffsetNewest] when that is configured and [OffsetOldest] for every
    other value; its sarama configuration carries the resolved client
    identifier, which is not empty, and has [Consumer.Return.Errors]
    set. *)
Theorem NewConsumer_fields (env : Adapter) (cfg0 : ConsumerConfig)
        (t : trace) (kc : consumer) (err : option error) (t' : trace) :
  NewConsumer env cfg0 t = (Returns (Some kc, err), t') ->
  err = None
  /\ topic kc = Topic cfg0 /\ Topic cfg0 <> ""
  /\ Brokers (cfg kc) = Brokers cfg0 /\ Brokers cfg0 <> []
  /\ Tracing cfg0 = Some (tracing kc)
  /\ offset kc = (if (Offset cfg0 =? OffsetNewest)%Z
                  then OffsetNewest else OffsetOldest)
  /\ Offset (cfg kc) = offset kc
  /\ exists sc,
       SaramaConfig (cfg kc) = Some sc
       /\ sarama.ClientID sc = resolved_ClientID env cfg0
       /\ resolved_ClientID env cfg0 <> ""
       /\ sarama.Consumer_Return_Errors sc = true.
Proof.
  unfold NewConsumer. rewrite NewConsumer_ClientID.
  destruct (String.eqb_spec (resolved_ClientID env cfg0) "") as [Hc | Hc];
    [discriminate |].
  destruct (Nat.eqb (List.length (Brokers cfg0)) 0) eqn:Hb; [discriminate |].
  destruct (String.eqb_spec (Topic cfg0) "") as [Ht | Ht]; [discriminate |].
  destruct (Tracing cfg0) as [tr |]; [| discriminate].
  match goal with |- context [Reset env ?k t] =>
    destruct (Reset env k t) as [[e kc1] t1] eqn:HR end.
  destruct e; [discriminate |].
  intros H; inversion H; subst; clear H.
  destruct (Reset_success env _ _ HR) as (ps & _ & -> & _). simpl.
  assert (Hb' : Brokers cfg0 <> []).
  { intros H. apply eqb_empty in H. congruence. }
  assert (Hoffset : (if negb (Offset cfg0 =? OffsetNewest)%Z
                     then OffsetOldest else Offset cfg0)
                    = (if (Offset cfg0 =? OffsetNewest)%Z
                       then OffsetNewest else OffsetOldest)).
  { destruct (Z.eqb_spec (Offset cfg0) OffsetNewest) as [-> |]; reflexivity. }
  repeat split; auto.
  eexists. split; [reflexivity |]. simpl.
  rewrite <- (NewConsumer_ClientID env cfg0). repeat split; auto.
  now rewrite NewConsumer_ClientID.
Qed.

Lemma NewConsumer_fields_witness :
  offset (fst (built steady)) = OffsetNewest
  /\ tracing (fst (built steady)) = true
  /\ topic (fst (built steady)) = "t".
Proof.
  pose proof (NewConsumer_fields steady (consumer_cfg OffsetNewest (Some true))
                [] (fst (built steady)) None (snd (built steady)) eq_refl)
    as (_ & Ht & _ & _ & _ & Htr & Ho & _).
  split; [exact Ho |]. split; [| exact Ht].
  simpl in Htr. inversion Htr. reflexivity.
Defined.


(** ** consumer.go: traces *)

Lemma counter_app (name : string) (t u : trace) :
  counter name (t ++ u) = (counter name t + counter name u)%Z.
Proof.
  induction t as [| e t IH]; simpl; [reflexivity |].
  destruct e; try exact IH. rewrite IH. lia.
Qed.

Lemma async_closes_app (t u : trace) :
  async_closes (t ++ u) = async_closes t ++ async_closes u.
Proof.
  induction t as [| e t IH]; simpl; [reflexivity |].
  destruct e; try exact IH. simpl. f_equal. exact IH.
Qed.

Lemma async_closes_map (pcs : list PartitionConsumer) :
  async_closes (map EvAsyncClose pcs) = pcs.
Proof. induction pcs; simpl; congruence. Qed.

Lemma partitions_tried_app (t u : trace) :
  partitions_tried (t ++ u) = partitions_tried t ++ partitions_tried u.
Proof.
  induction t as [| e t IH]; simpl; [reflexivity |].
  destruct e; try exact IH. simpl. f_equal. exact IH.
Qed.

Lemma goroutines_app (t u : trace) :
  goroutines (t ++ u) = goroutines t ++ goroutines u.
Proof.
  induction t as [| e t IH]; simpl; [reflexivity |].
  destruct e; try exact IH; simpl; f_equal; exact IH.
Qed.

Lemma new_session_opened (t : trace) : new_session t = List.length (opened t).
Proof.
  unfold new_session. induction t as [| e t IH]; simpl; [reflexivity |].
  destruct e; try exact IH. destruct r; simpl; congruence.
Qed.

(** Opening partition consumers opens and closes no session and touches
    no counter. *)
Lemma open_partitions_quiet (env : Adapter) (c : option Session)
      (kc : consumer) (ps : list Z) :
  forall pcs t r t',
    open_partitions env c kc ps pcs t = (r, t') ->
    opened t' = opened t /\ session_closes t' = session_closes t
    /\ forall name, counter name t' = counter name t.
Proof.
  induction ps as [| p rest IH]; intros pcs t r t'; simpl.
  - intros H; inversion H; subst; auto.
  - destruct c as [s |]; [| intros H; inversion H; subst; auto].
    destruct (ConsumePartition env t s (topic kc) p (offset kc)).
    + intros H; inversion H; subst.
      rewrite opened_app, session_closes_app. simpl.
      repeat split; try apply app_nil_r.
      intros name. rewrite counter_app. simpl. lia.
    + intros H. apply IH in H. destruct H as (A & B & C).
      rewrite A, B, opened_app, session_closes_app. simpl.
      repeat split; try apply app_nil_r.
      intros name. rewrite C, counter_app. simpl. lia.
Qed.

(** ** consumer.go: [Reset] *)

Lemma rebalance_success_neq_failure :
  String.eqb rebalance_failure rebalance_success = false
  /\ String.eqb rebalance_success rebalance_failure = false.
Proof. split; reflexivity. Qed.

(** What [Reset] does to the trace: it closes the session in use, if
    any, exactly once; it opens at most one session; and it adds one to
    exactly one of the two rebalance counters, the success counter when
    it returns [nil] and the failure counter when it returns an
    error. *)
Theorem Reset_effects (env : Adapter) (kc : consumer) (t : trace)
        (e : option error) (kc' : consumer) (t' : trace) :
  Reset env kc t = (e, kc', t') ->
  session_closes t'
  = session_closes t ++ match getConsumer kc with
                        | Some c => [c]
                        | None => []
                        end
  /\ (exists k, k <= 1 /\ List.length (opened t') = List.length (opened t) + k)
  /\ counter rebalance_success t'
     = (counter rebalance_success t
        + match e with Some _ => 0 | None => 1 end)%Z
  /\ counter rebalance_failure t'
     = (counter rebalance_failure t
        + match e with Some _ => 1 | None => 0 end)%Z.
Proof.
  unfold Reset, rebalance.
  set (t0 := close_prior env kc t).
  assert (H0 : session_closes t0
               = session_closes t ++ match getConsumer kc with
                                     | Some c => [c]
                                     | None => []
                                     end
               /\ opened t0 = opened t
               /\ forall name, counter name t0 = counter name t).
  { unfold t0, close_prior. destruct (getConsumer kc) as [c |].
    - destruct (SessionClose env t c);
        rewrite session_closes_app, opened_app; simpl;
        repeat split; try apply app_nil_r;
        intros name; rewrite counter_app; simpl; lia.
    - repeat split. now rewrite app_nil_r. }
  destruct H0 as (Hs & Ho & Hcn).
  destruct (NewSaramaConsumer env t0 _ _) as [err |].
  - intros H; inversion H; subst; clear H.
    rewrite !session_closes_app, !opened_app, !counter_app, Hs, Ho, !Hcn.
    simpl. rewrite !app_nil_r. repeat split; try lia.
    exists 0. lia.
  - destruct (Partitions env _ _ _) as [ps | err];
      intros H; inversion H; subst; clear H;
      rewrite !session_closes_app, !opened_app, !counter_app, Hs, Ho, !Hcn;
      simpl; rewrite !app_nil_r; repeat split; try lia;
      exists 1; rewrite length_app; simpl; lia.
Qed.

Lemma Reset_effects_witness :
  let kc := fst (built steady) in
  let t := snd (built steady) in
  session_closes (snd (Reset steady kc t)) = [0]
  /\ counter rebalance_success (snd (Reset steady kc t)) = 2%Z.
Proof.
  cbv zeta.
  destruct (Reset steady (fst (built steady)) (snd (built steady)))
    as [[e kc'] t'] eqn:HR.
  pose proof (Reset_effects steady _ _ _ _ _ HR) as (A & _ & B & _).
  simpl snd. split.
  - exact A.
  - rewrite B. inversion HR. reflexivity.
Defined.

(** An error from closing the previous session does not fail the
    rebalance: it is logged, and when the new session opens and reports
    its partitions [Reset] returns [nil] and publishes them. *)
Theorem Reset_logs_close_error (env : Adapter) (kc : consumer) (t : trace)
        (c : Session) (e : error) (ps : list Z) :
  getConsumer kc = Some c ->
  SessionClose env t c = Some e ->
  let t0 := t ++ [EvSessionClose c (Some e); EvWarn warn_close e] in
  let open := EvNewSaramaConsumer (Brokers (cfg kc)) (SaramaConfig (cfg kc))
                (inl (new_session t0)) in
  NewSaramaConsumer env t0 (Brokers (cfg kc)) (SaramaConfig (cfg kc)) = None ->
  Partitions env (t0 ++ [open]) (new_session t0) (Topic (cfg kc)) = inl ps ->
  Reset env kc t
  = (None,
     apply_stores [StoreConsumer (new_session t0); StorePartitions ps] kc,
     (t0 ++ [open])
     ++ [EvPartitions (new_session t0) (Topic (cfg kc)) (inl ps);
         EvCounterAdd rebalance_success 1]).
Proof.
  intros Hc Hclose t0 open Hopen Hparts.
  unfold Reset, rebalance, close_prior. rewrite Hc, Hclose.
  fold t0. rewrite Hopen. fold open. rewrite Hparts.
  simpl. rewrite <- app_assoc. reflexivity.
Qed.

Lemma Reset_logs_close_error_witness :
  let kc := fst (built close_fails) in
  let t := snd (built close_fails) in
  fst (fst (Reset close_fails kc t)) = None
  /\ In (EvWarn warn_close (ErrSarama "close: broken pipe"))
        (snd (Reset close_fails kc t)).
Proof.
  cbv zeta.
  rewrite (Reset_logs_close_error close_fails (fst (built close_fails))
             (snd (built close_fails)) 0 (ErrSarama "close: broken pipe")
             [0; 1]%Z eq_refl eq_refl eq_refl eq_refl).
  split; [reflexivity |]. simpl. tauto.
Defined.

(** After a [Reset] that fails, the consumer is as it was: it still
    holds the session [Reset] has closed.  A [Close] that follows closes
    that session a second time. *)
Theorem failed_Reset_keeps_closed_session
        (env : Adapter) (kc : consumer) (t : trace) (c : Session)
        (err : error) (kc' : consumer) (t' : trace) :
  getConsumer kc = Some c -> closed kc = 0%Z -> wg kc = 0%Z ->
  Reset env kc t = (Some err, kc', t') ->
  kc' = kc
  /\ session_closes t' = session_closes t ++ [c]
  /\ (exists r, fst (fst (Close env kc' t')) = Returns r)
  /\ session_closes (snd (Close env kc' t')) = session_closes t ++ [c; c].
Proof.
  intros Hc Hcl Hw HR.
  pose proof (@Reset_failure env kc t err kc' t' HR) as ->.
  pose proof (Reset_effects env _ _ _ _ _ HR) as (Hs & _).
  rewrite Hc in Hs. split; [reflexivity |]. split; [exact Hs |].
  unfold Close. rewrite Hcl. simpl. rewrite Hw. simpl.
  unfold getConsumer in *. simpl. rewrite Hc. simpl.
  split; [eexists; reflexivity |].
  rewrite !session_closes_app, session_closes_AsyncClose, Hs. simpl.
  rewrite app_nil_r, <- app_assoc. reflexivity.
Qed.

Lemma failed_Reset_keeps_closed_session_witness :
  let kc := fst (built one_session) in
  let t := snd (built one_session) in
  getConsumer (snd (fst (Reset one_session kc t))) = Some 0
  /\ session_closes
       (snd (Close one_session (snd (fst (Reset one_session kc t)))
               (snd (Reset one_session kc t))))
     = [0; 0].
Proof.
  cbv zeta.
  destruct (Reset one_session (fst (built one_session))
              (snd (built one_session))) as [[e kc'] t'] eqn:HR.
  assert (He : e = Some (ErrSarama "out of brokers"))
    by (inversion HR; reflexivity).
  subst e.
  pose proof (failed_Reset_keeps_closed_session one_session
                (fst (built one_session)) (snd (built one_session)) 0 _ _ _
                eq_refl eq_refl eq_refl HR) as (A & _ & _ & D).
  simpl fst. simpl snd. split; [rewrite A; reflexivity | exact D].
Defined.


(** ** consumer.go: [Close] and [Consume] *)

(** [Close] on a consumer that has just been built, before [Consume] is
    ever called: it does not block, it signals no partition consumer
    (there is none yet), it closes the session once and returns what
    that close answers. *)
Theorem Close_before_Consume (env : Adapter) (cfg0 : ConsumerConfig)
        (t0 : trace) (kc : consumer) (err : option error) (t : trace) :
  NewConsumer env cfg0 t0 = (Returns (Some kc, err), t) ->
  exists c,
    getConsumer kc = Some c
    /\ Close env kc t
       = (Returns (SessionClose env t c), apply_store (StoreClosed 1) kc,
          t ++ [EvSessionClose c (SessionClose env t c)]).
Proof.
  intros Hnew.
  destruct (NewConsumer_built env cfg0 t0 Hnew)
    as (_ & Hcl & _ & Hw & Hp & (c & Hc) & _).
  exists c. split; [exact Hc |].
  unfold Close. rewrite Hcl. simpl. rewrite Hw. simpl.
  unfold getPartitionConsumers, getConsumer in *. simpl. rewrite Hp, Hc.
  simpl. rewrite app_nil_r. reflexivity.
Qed.

Lemma Close_before_Consume_witness :
  fst (fst (Close close_fails (fst (built close_fails))
              (snd (built close_fails))))
  = Returns (Some (ErrSarama "close: broken pipe")).
Proof.
  destruct (Close_before_Consume close_fails
              (consumer_cfg OffsetNewest (Some true)) []
              (fst (built close_fails)) None (snd (built close_fails))
              eq_refl) as (c & _ & H).
  rewrite H. reflexivity.
Defined.

(** The loop of [Consume] never drops the session: a consumer that
    holds one when the loop starts holds one when it stops. *)
Lemma consume_loop_session (env : Adapter) (script : list bool) :
  forall kc t o kc' t',
    consume_loop env script kc t = (o, kc', t') ->
    (exists c, getConsumer kc = Some c) ->
    exists c', getConsumer kc' = Some c'.
Proof.
  induction script as [| b rest IH]; intros kc t o kc' t'; simpl;
    destruct (open_partitions env _ kc _ [] t) as [[[pcs | e] | r |] t1];
    try (intros H Hc; inversion H; subst; exact Hc).
  destruct (negb (closed _ =? 0)%Z).
  - intros H Hc; inversion H; subst. destruct b; exact Hc.
  - destruct (Reset env _ t1) as [[[e |] kc3] t2] eqn:HR.
    + intros H Hc; inversion H; subst.
      rewrite (@Reset_failure env _ _ _ _ _ HR). destruct b; exact Hc.
    + intros H _. apply (IH _ _ _ _ _ H).
      destruct (Reset_success env _ _ HR) as (ps & _ & -> & _).
      eexists. reflexivity.
Qed.

(** Whenever [Consume] has returned or panicked, [kc.wg] is back where
    it was, so a [Close] that follows on the consumer [NewConsumer]
    built does not block: it returns, with [nil] when the flag was
    already set and with the answer of the session close otherwise. *)
Theorem Close_after_Consume_returns
        (env : Adapter) (cfg0 : ConsumerConfig) (t0 : trace) (kc : consumer)
        (err : option error) (t : trace) (script : list bool)
        (o : outcome (option error)) (kc1 : consumer) (t1 : trace) :
  NewConsumer env cfg0 t0 = (Returns (Some kc, err), t) ->
  Consume env script kc t = (o, kc1, t1) ->
  o <> Blocks ->
  wg kc1 = 0%Z
  /\ exists r, fst (fst (Close env kc1 t1)) = Returns r.
Proof.
  intros Hnew HC Ho.
  destruct (NewConsumer_built env cfg0 t0 Hnew)
    as (_ & _ & _ & Hw & _ & Hc & _).
  unfold Consume in HC.
  destruct (consume_loop env script (apply_store (WgAdd 1) kc) t)
    as [[o1 kc2] t2] eqn:HL.
  pose proof (consume_loop_frame env script _ _ HL) as (_ & Hwg).
  destruct (consume_loop_session env script _ _ _ _ _ HL Hc) as (c' & Hc').
  simpl in Hwg.
  assert (Hk : kc1 = apply_stores [WgAdd (-1); StoreConsumeReturned 1] kc2
               /\ o = o1).
  { destruct o1; simpl in HC; inversion HC; subst; auto.
    contradiction. }
  destruct Hk as [-> ->].
  assert (Hw1 : wg (apply_stores [WgAdd (-1); StoreConsumeReturned 1] kc2)
                = 0%Z) by (simpl; lia).
  split; [exact Hw1 |].
  unfold Close.
  destruct (negb (closed _ =? 0)%Z); [eexists; reflexivity |].
  change (wg (apply_store (StoreClosed 1)
                (apply_stores [WgAdd (-1); StoreConsumeReturned 1] kc2)))
    with (wg (apply_stores [WgAdd (-1); StoreConsumeReturned 1] kc2)).
  rewrite Hw1. simpl negb. cbv iota.
  change (getConsumer (apply_store (StoreClosed 1)
                         (apply_stores [WgAdd (-1); StoreConsumeReturned 1]
                            kc2)))
    with (getConsumer kc2).
  rewrite Hc'. eexists. reflexivity.
Qed.

Lemma Close_after_Consume_returns_witness :
  let r := Consume one_session [false] (fst (built one_session))
             (snd (built one_session)) in
  fst (fst r) = Returns (Some (ErrSarama "out of brokers"))
  /\ fst (fst (Close one_session (snd (fst r)) (snd r))) = Returns None.
Proof.
  cbv zeta. split; [reflexivity |].
  destruct (Close_after_Consume_returns one_session
              (consumer_cfg OffsetNewest (Some true)) []
              (fst (built one_session)) None (snd (built one_session))
              [false] _ _ _ eq_refl eq_refl) as (_ & r & Hr).
  - discriminate.
  - reflexivity.
Defined.

(** [Consume] returns [nil] only on shutdown: the closed flag is set
    when it does, and if the flag was unset when [Consume] started, a
    [Close] has won the compare-and-swap in the meantime. *)
Theorem Consume_nil_only_when_closed
        (env : Adapter) (script : list bool) (kc : consumer) (t : trace)
        (kc' : consumer) (t' : trace) :
  Consume env script kc t = (Returns None, kc', t') ->
  closed kc' <> 0%Z
  /\ (closed kc = 0%Z -> existsb (fun b => b) script = true).
Proof.
  unfold Consume.
  assert (H : forall script k u o k' u',
             consume_loop env script k u = (o, k', u') ->
             o = Returns None ->
             closed k' <> 0%Z
             /\ (closed k = 0%Z -> existsb (fun b => b) script = true)).
  { clear. induction script as [| b rest IH]; intros k u o k' u'; simpl;
      destruct (open_partitions env _ k _ [] u) as [[[pcs | e] | r |] u1];
      try (intros H Ho; inversion H; subst; discriminate).
    destruct (negb (closed _ =? 0)%Z) eqn:Hcl.
    - intros H _; inversion H; subst. split.
      + intros Hz. rewrite Hz in Hcl. discriminate.
      + intros Hz. destruct b; [reflexivity |].
        simpl in Hcl. rewrite Hz in Hcl. discriminate.
    - destruct (Reset env _ u1) as [[[e |] k3] u2] eqn:HR.
      + intros H Ho; inversion H; subst; discriminate.
      + intros H Ho. destruct (IH _ _ _ _ _ H Ho) as [A B].
        split; [exact A |]. intros Hz.
        destruct b; [reflexivity |]. simpl. apply B.
        apply Reset_frame in HR. destruct HR as (-> & _).
        simpl. simpl in Hcl. apply negb_false_iff, Z.eqb_eq in Hcl.
        exact Hcl. }
  destruct (consume_loop env script (apply_store (WgAdd 1) kc) t)
    as [[o k'] u'] eqn:HL.
  intros HC.
  assert (Ho : o = Returns None /\ kc' = apply_stores
                                          [WgAdd (-1); StoreConsumeReturned 1]
                                          k').
  { destruct o; simpl in HC; inversion HC; subst; auto. }
  destruct Ho as [-> ->].
  destruct (H _ _ _ _ _ _ HL eq_refl) as [A B]. split; [exact A | exact B].
Qed.

Lemma Consume_nil_only_when_closed_witness :
  closed (snd (fst (Consume steady [false; true] (fst (built steady))
                      (snd (built steady)))))
  <> 0%Z.
Proof.
  destruct (Consume steady [false; true] (fst (built steady))
              (snd (built steady))) as [[o kc'] t'] eqn:HC.
  assert (Ho : o = Returns None) by (vm_compute in HC; congruence).
  subst o.
  exact (proj1 (Consume_nil_only_when_closed steady [false; true]
                  (fst (built steady)) (snd (built steady)) kc' t' HC)).
Defined.


(** Opening partition consumers returns or panics; it does not wait. *)
Lemma open_partitions_returns (env : Adapter) (c : option Session)
      (kc : consumer) (ps : list Z) :
  forall pcs t t', open_partitions env c kc ps pcs t <> (Blocks, t').
Proof.
  induction ps as [| p rest IH]; intros pcs t t'; simpl; [discriminate |].
  destruct c as [s |]; [| discriminate].
  destruct (ConsumePartition env t s (topic kc) p (offset kc));
    [discriminate | apply IH].
Qed.



(** Whenever [Consume] is waiting for its goroutines, or has returned
    [nil], the partition consumers it has stored are the ones of the
    current assignment: one per partition, in order, opened on the
    current session at the offset of the consumer. *)
Theorem handles_match_assignment
        (env : Adapter) (script : list bool) (kc : consumer) (t : trace)
        (o : outcome (option error)) (kc' : consumer) (t' : trace) :
  Consume env script kc t = (o, kc', t') ->
  o = Blocks \/ o = Returns None ->
  (exists c, getConsumer kc = Some c) ->
  exists c',
    getConsumer kc' = Some c'
    /\ getPartitionConsumers kc' = map (handle c' kc) (getPartitions kc').
Proof.
  unfold Consume.
  assert (H : forall script k u o k' u',
             consume_loop env script k u = (o, k', u') ->
             o = Blocks \/ o = Returns None ->
             (exists c, getConsumer k = Some c) ->
             exists c',
               getConsumer k' = Some c' /\ offset k' = offset k
               /\ getPartitionConsumers k'
                  = map (handle c' k) (getPartitions k')).
  { clear. induction script as [| b rest IH]; intros k u o k' u'; simpl;
      destruct (open_partitions env _ k _ [] u) as [[[pcs | e] | r |] u1]
        eqn:Hopen;
      try (intros H [Ho | Ho]; inversion H; subst; discriminate).
    - intros H _ [c Hc]; inversion H; subst.
      rewrite Hc in Hopen. apply open_partitions_handles in Hopen.
      exists c. simpl. rewrite Hopen. auto.
    - exfalso. exact (open_partitions_returns env _ _ _ _ _ _ Hopen).
    - destruct (negb (closed _ =? 0)%Z).
      + intros H _ [c Hc]; inversion H; subst.
        rewrite Hc in Hopen. apply open_partitions_handles in Hopen.
        exists c. destruct b; simpl; rewrite Hopen; auto.
      + destruct (Reset env _ u1) as [[[e |] k3] u2] eqn:HR.
        * intros H [Ho | Ho]; inversion H; subst; discriminate.
        * intros H Ho _.
          pose proof (Reset_frame env _ _ HR) as (_ & _ & _ & _ & _ & _ & Hoff).
          destruct (Reset_success env _ _ HR) as (ps & _ & Hk3 & _).
          destruct (IH _ _ _ _ _ H Ho) as (c' & A & B & C).
          { rewrite Hk3. eexists. reflexivity. }
          exists c'. split; [exact A |]. split.
          -- rewrite B, Hoff. destruct b; reflexivity.
          -- rewrite C. apply map_ext. intros p. unfold handle.
             rewrite Hoff. destruct b; reflexivity.
    - exfalso. exact (open_partitions_returns env _ _ _ _ _ _ Hopen). }
  destruct (consume_loop env script (apply_store (WgAdd 1) kc) t)
    as [[o1 k'] u'] eqn:HL.
  intros HC Ho Hc.
  assert (Ho1 : o1 = o) by (destruct o1; simpl in HC; inversion HC; auto).
  subst o1.
  destruct (H _ _ _ _ _ _ HL Ho Hc) as (c' & A & B & C).
  exists c'.
  assert (Hk : getConsumer kc' = getConsumer k'
               /\ getPartitionConsumers kc' = getPartitionConsumers k'
               /\ getPartitions kc' = getPartitions k').
  { destruct o; simpl in HC; inversion HC; subst; auto. }
  destruct Hk as (-> & -> & ->). split; [exact A | exact C].
Qed.

Lemma handles_match_assignment_witness :
  getPartitionConsumers
    (snd (fst (Consume steady [false] (fst (built steady))
                 (snd (built steady)))))
  = [handle 1 (fst (built steady)) 2; handle 1 (fst (built steady)) 3].
Proof.
  destruct (Consume steady [false] (fst (built steady)) (snd (built steady)))
    as [[o kc'] t'] eqn:HC.
  assert (Ho : o = Blocks) by (vm_compute in HC; congruence).
  destruct (handles_match_assignment steady [false] (fst (built steady))
              (snd (built steady)) o kc' t' HC (or_introl Ho)
              (ex_intro _ 0 eq_refl)) as (c' & A & B).
  assert (Hc : getConsumer kc' = Some 1 /\ getPartitions kc' = [2; 3]%Z)
    by (vm_compute in HC; inversion HC; split; reflexivity).
  destruct Hc as [Hc Hp]. rewrite Hc in A. inversion A; subst c'.
  simpl snd. simpl fst. rewrite B, Hp. reflexivity.
Defined.

(** ** consumer.go: sessions along the loop *)

Lemma existsb_seq (c n : nat) :
  existsb (Nat.eqb c) (seq 0 n) = Nat.ltb c n.
Proof.
  induction n as [| n IH]; [reflexivity |].
  rewrite seq_S, existsb_app, IH. simpl. rewrite orb_false_r.
  destruct (Nat.ltb_spec c n), (Nat.eqb_spec c n), (Nat.ltb_spec c (S n));
    simpl; try reflexivity; lia.
Qed.

Lemma left_open_seq (t : trace) (n : nat) :
  opened t = seq 0 (S n) -> session_closes t = seq 0 n -> left_open t = [n].
Proof.
  intros Ho Hc. unfold left_open. rewrite Ho, Hc, seq_S, filter_app. simpl.
  rewrite existsb_seq, Nat.ltb_irrefl. simpl.
  assert (H : forall m, m <= n ->
                filter (fun c => negb (existsb (Nat.eqb c) (seq 0 n)))
                  (seq 0 m) = []).
  { induction m as [| m IH]; intros Hm; [reflexivity |].
    rewrite seq_S, filter_app, IH by lia. simpl.
    rewrite existsb_seq. destruct (Nat.ltb_spec m n); [reflexivity | lia]. }
  rewrite H by lia. reflexivity.
Qed.

(** One pass of the loop that goes round closes the session in use and
    opens the next one. *)
Lemma rebalance_pass_sessions (env : Adapter) (kc : consumer) (t : trace)
      (c : Session) (kc1 : consumer) (t1 : trace) :
  getConsumer kc = Some c ->
  rebalance_pass env kc t = Some (kc1, t1) ->
  getConsumer kc1 = Some (List.length (opened t))
  /\ opened t1 = opened t ++ [List.length (opened t)]
  /\ session_closes t1 = session_closes t ++ [c].
Proof.
  intros Hc. unfold rebalance_pass.
  destruct (open_partitions env _ kc _ [] t) as [[[pcs | e] | r |] u] eqn:Hopen;
    try discriminate.
  destruct (negb (closed _ =? 0)%Z); [discriminate |].
  destruct (Reset env _ u) as [[[e |] k3] u2] eqn:HR; [discriminate |].
  intros H; inversion H; subst; clear H.
  pose proof (open_partitions_quiet env _ _ _ _ _ _ _ Hopen) as (Ho & Hs & _).
  pose proof (Reset_effects env _ _ _ _ _ HR) as (Hs2 & _).
  destruct (Reset_success env _ _ HR) as (ps & _ & Hk & Hu).
  change (getConsumer (apply_store (StorePartitionConsumers pcs) kc))
    with (getConsumer kc) in *.
  rewrite Hc in Hs2.
  assert (Hprior : opened (close_prior env
                             (apply_store (StorePartitionConsumers pcs) kc) u)
                   = opened t).
  { unfold close_prior.
    change (getConsumer (apply_store (StorePartitionConsumers pcs) kc))
      with (getConsumer kc).
    rewrite Hc.
    destruct (SessionClose env u c); rewrite opened_app; simpl;
      rewrite app_nil_r; exact Ho. }
  split; [| split].
  - rewrite Hk. simpl. unfold getConsumer. simpl.
    rewrite new_session_opened, Hprior. reflexivity.
  - rewrite Hu, !opened_app, new_session_opened, Hprior. simpl.
    rewrite app_nil_r. reflexivity.
  - rewrite Hs2, Hs. reflexivity.
Qed.

(** As long as every rebalance succeeds, exactly one session is open:
    from a consumer built in a fresh process, after [n] passes of the
    loop that went round, the sessions [0 .. n] have been opened, the
    sessions [0 .. n-1] have been closed, each once, and the consumer
    holds session [n]. *)
Theorem one_live_session
        (env : Adapter) (cfg0 : ConsumerConfig) (kc : consumer)
        (err : option error) (t : trace) (n : nat)
        (kc_n : consumer) (t_n : trace) :
  NewConsumer env cfg0 [] = (Returns (Some kc, err), t) ->
  rebalance_passes env n kc t = Some (kc_n, t_n) ->
  getConsumer kc_n = Some n
  /\ opened t_n = seq 0 (S n)
  /\ session_closes t_n = seq 0 n
  /\ left_open t_n = [n].
Proof.
  intros Hnew Hpass.
  assert (H0 : getConsumer kc = Some 0 /\ opened t = [0]
               /\ session_closes t = []).
  { revert Hnew. unfold NewConsumer.
    destruct (String.eqb _ ""); [discriminate |].
    destruct (Nat.eqb _ 0); [discriminate |].
    destruct (String.eqb (Topic cfg0) ""); [discriminate |].
    destruct (Tracing cfg0) as [tr |]; [| discriminate].
    match goal with |- context [Reset env ?k []] =>
      destruct (Reset env k []) as [[e kc1] t1] eqn:HR end.
    destruct e; [discriminate |].
    intros H; inversion H; subst; clear H.
    destruct (Reset_success env _ _ HR) as (ps & _ & -> & ->).
    simpl. auto. }
  assert (H : forall n k u k' u' m,
             getConsumer k = Some m -> opened u = seq 0 (S m) ->
             session_closes u = seq 0 m ->
             rebalance_passes env n k u = Some (k', u') ->
             getConsumer k' = Some (m + n)
             /\ opened u' = seq 0 (S (m + n))
             /\ session_closes u' = seq 0 (m + n)).
  { clear. induction n as [| n IH]; intros k u k' u' m Hc Ho Hs; simpl.
    - intros H; inversion H; subst. rewrite Nat.add_0_r. auto.
    - destruct (rebalance_pass env k u) as [[k1 u1] |] eqn:Hp;
        [| discriminate].
      intros H.
      destruct (rebalance_pass_sessions env k u m k1 u1 Hc Hp)
        as (A & B & C).
      rewrite Ho, length_seq in A, B.
      replace (m + S n) with (S m + n) by lia.
      apply (IH k1 u1 k' u' (S m)); auto.
      + rewrite B. symmetry. apply seq_S.
      + rewrite C, Hs. symmetry. apply seq_S. }
  destruct H0 as (Hc & Ho & Hs).
  destruct (H n kc t kc_n t_n 0 Hc Ho Hs Hpass) as (A & B & C).
  simpl in A, B, C. repeat split; auto.
  apply left_open_seq; assumption.
Qed.

Lemma one_live_session_witness :
  exists kc_n t_n,
    rebalance_passes steady 3 (fst (built steady)) (snd (built steady))
    = Some (kc_n, t_n)
    /\ left_open t_n = [3] /\ session_closes t_n = [0; 1; 2].
Proof.
  destruct (rebalance_passes steady 3 (fst (built steady))
              (snd (built steady))) as [[kc_n t_n] |] eqn:Hp;
    [| vm_compute in Hp; discriminate].
  exists kc_n, t_n. split; [reflexivity |].
  destruct (one_live_session steady (consumer_cfg OffsetNewest (Some true))
              (fst (built steady)) None (snd (built steady)) 3 kc_n t_n
              eq_refl Hp) as (_ & _ & C & D).
  split; [exact D | exact C].
Defined.

(** ** consumer.go: a partition consumer that does not open *)

(** When [ConsumePartition] fails for a partition of the assignment,
    [Consume] returns that error at once: the partitions after it are
    not tried, the partition consumers opened before it are not stored,
    and their goroutines, two each, have been started and are left
    running. *)
Theorem Consume_stops_at_failed_partition
        (env : Adapter) (kc : consumer) (t : trace) (c : Session)
        (ps1 : list Z) (p : Z) (ps2 : list Z) (err : error)
        (script : list bool) :
  getConsumer kc = Some c ->
  getPartitions kc = ps1 ++ p :: ps2 ->
  (forall u q, In q ps1 ->
               ConsumePartition env u c (topic kc) q (offset kc) = None) ->
  (forall u, ConsumePartition env u c (topic kc) p (offset kc) = Some err) ->
  exists kc' t',
    Consume env script kc t = (Returns (Some err), kc', t')
    /\ partitionConsumers kc' = partitionConsumers kc
    /\ IsHealthy kc' = false
    /\ partitions_tried t' = partitions_tried t ++ ps1 ++ [p]
    /\ goroutines t'
       = goroutines t ++ flat_map (fun q => [handle c kc q; handle c kc q]) ps1.
Proof.
  intros Hc Hp Hok Hbad.
  assert (H : forall k ps1 pcs u,
             topic k = topic kc -> offset k = offset kc ->
             (forall u q, In q ps1 ->
                ConsumePartition env u c (topic kc) q (offset kc) = None) ->
             exists u',
               open_partitions env (Some c) k (ps1 ++ p :: ps2) pcs u
               = (Returns (inr err), u')
               /\ partitions_tried u' = partitions_tried u ++ ps1 ++ [p]
               /\ goroutines u'
                  = goroutines u
                    ++ flat_map (fun q => [handle c kc q; handle c kc q]) ps1).
  { clear Hp Hok ps1. intros k ps1 pcs u Ht Hoff. revert pcs u.
    induction ps1 as [| q rest IH]; intros pcs u Hok; simpl;
      rewrite Ht, Hoff.
    - rewrite Hbad. eexists. split; [reflexivity |].
      rewrite partitions_tried_app, goroutines_app. simpl.
      now rewrite app_nil_r.
    - rewrite (Hok u q (or_introl eq_refl)).
      fold (handle c kc q).
      destruct (IH (pcs ++ [handle c kc q])
                   (u ++ [EvConsumePartition c (topic kc) q (offset kc) None;
                          EvGoMessages (handle c kc q);
                          EvGoErrors (handle c kc q)]))
        as (u' & A & B & C).
      { intros u0 q0 Hq. apply Hok. right. exact Hq. }
      exists u'. split; [exact A |].
      rewrite B, C, partitions_tried_app, goroutines_app. simpl.
      rewrite <- !app_assoc. split; reflexivity. }
  destruct (H (apply_store (WgAdd 1) kc) ps1 [] t eq_refl eq_refl Hok)
    as (u' & A & B & C).
  assert (HL : consume_loop env script (apply_store (WgAdd 1) kc) t
               = (Returns (Some err), apply_store (WgAdd 1) kc, u')).
  { assert (Hc' : getConsumer (apply_store (WgAdd 1) kc) = Some c)
      by exact Hc.
    assert (Hp' : getPartitions (apply_store (WgAdd 1) kc) = ps1 ++ p :: ps2)
      by exact Hp.
    destruct script;
      cbn -[getConsumer getPartitions apply_store open_partitions];
      rewrite Hc', Hp', A; reflexivity. }
  unfold Consume. rewrite HL. simpl.
  eexists. eexists. split; [reflexivity |].
  repeat split; auto.
Qed.

Lemma Consume_stops_at_failed_partition_witness :
  let env := {| DefaultSaramaConfig := sarama.NewConfig;
                NewSaramaConsumer := fun _ _ _ => None;
                Partitions := fun _ _ _ => inl [0; 1; 2]%Z;
                SessionClose := fun _ _ => None;
                ConsumePartition :=
                  fun _ _ _ p _ =>
                    if (p =? 1)%Z then Some (ErrSarama "no leader")
                    else None |} in
  fst (fst (Consume env [false] (fst (built env)) (snd (built env))))
  = Returns (Some (ErrSarama "no leader"))
  /\ partitions_tried
       (snd (Consume env [false] (fst (built env)) (snd (built env))))
     = [0; 1]%Z.
Proof.
  intros env.
  destruct (Consume_stops_at_failed_partition env (fst (built env))
              (snd (built env)) 0 [0%Z] 1%Z [2%Z] (ErrSarama "no leader")
              [false] eq_refl eq_refl)
    as (kc' & t' & A & _ & _ & B & _).
  - intros u q [<- | []]. reflexivity.
  - intros u. reflexivity.
  - rewrite A. split; [reflexivity | exact B].
Defined.

(** ** consumer.go: the goroutines of [Consume] *)

(** The goroutine draining a message channel calls [messagesFunc] once
    for every message delivered, in the order delivered, whatever
    earlier calls returned.  With tracing on, every call runs inside a
    span named ["consumer."] followed by the topic, started before the
    call and finished after it with the error the call returned; with
    tracing off there is no span and the context is the background
    context. *)
Theorem messages_worker_contract
        (kc : consumer) (messagesFunc : ConsumeMessageFunc)
        (ms : list ConsumerMessage) :
  let spanName := String.append "consumer." (topic kc) in
  let ctx := if tracing kc then SpanContext spanName else Background in
  callbacks (messages_worker kc messagesFunc ms)
  = map (fun m => (m, messagesFunc ctx m)) ms
  /\ finished_spans (messages_worker kc messagesFunc ms)
     = (if tracing kc
        then map (fun m => (spanName, messagesFunc ctx m)) ms
        else [])
  /\ messages_worker kc messagesFunc ms
     = flat_map
         (fun m =>
            if tracing kc
            then [EvStartSpan spanName;
                  EvMessagesFunc ctx m (messagesFunc ctx m);
                  EvFinishSpan spanName (messagesFunc ctx m)]
            else [EvMessagesFunc ctx m (messagesFunc ctx m)]) ms
  /\ List.length (filter is_span (messages_worker kc messagesFunc ms))
     = if tracing kc then 2 * List.length ms else 0.
Proof.
  intros spanName ctx.
  assert (C : messages_worker kc messagesFunc ms
              = flat_map
                  (fun m =>
                     if tracing kc
                     then [EvStartSpan spanName;
                           EvMessagesFunc ctx m (messagesFunc ctx m);
                           EvFinishSpan spanName (messagesFunc ctx m)]
                     else [EvMessagesFunc ctx m (messagesFunc ctx m)]) ms).
  { unfold ctx, spanName. induction ms as [| m rest IH]; simpl; [reflexivity |].
    rewrite IH. unfold consume_message.
    destruct (tracing kc); reflexivity. }
  rewrite C. unfold ctx, spanName. clear C.
  destruct (tracing kc); repeat split; auto;
    induction ms as [| m rest IH]; simpl in *; auto;
    try (rewrite IH; reflexivity); try lia.
Qed.

(** The goroutine draining an error channel calls [errorsFunc] once for
    every error delivered, in the order delivered, and starts no span. *)
Lemma errors_worker_calls (errs : list error) :
  errors_worker errs = map EvErrorsFunc errs
  /\ filter is_span (errors_worker errs) = [].
Proof.
  split; induction errs as [| e rest IH]; simpl; congruence.
Qed.

(** ** consumer.go: what concurrent callers of [Close] do to the outside *)

Lemma in_close_zero (pc : close_pc) (c : Session)
      (pcs : list PartitionConsumer) (t0 t : trace) :
  in_close pc = 0 -> close_progress c pcs t0 pc t.
Proof. destruct pc; simpl; intros H; try discriminate; exact I. Qed.

Lemma progress_inv_step (env : Adapter) (c : Session)
      (pcs : list PartitionConsumer) (t0 : trace) (n : nat)
      (a : action) (s : system) :
  close_inv env c t0 n s -> progress_inv c pcs t0 s ->
  progress_inv c pcs t0 (step env a s).
Proof.
  intros Inv (Hp & Hz & Hprog). destruct a as [i |]; simpl.
  2:{ destruct (Z.ltb_spec 0 (wg (shared s)));
        unfold progress_inv; simpl; auto. }
  destruct (nth_error (callers s) i) as [pc |] eqn:Hi;
    [| unfold progress_inv; auto].
  assert (Hothers : in_close pc = 1 ->
                    forall j x, j <> i -> nth_error (callers s) j = Some x ->
                                in_close x = 0).
  { intros Hin j x Hne Hj.
    pose proof (@total_two_le in_close (callers s) i j pc x
                  (not_eq_sym Hne) Hi Hj) as Hle.
    rewrite (inv_winner Inv) in Hle.
    destruct (closed (shared s) =? 0)%Z; lia. }
  pose proof (Hprog i pc Hi) as Hmine.
  assert (Hmoved : forall pc' w,
             in_close pc = 1 ->
             close_progress c pcs t0 pc' w ->
             forall j x, nth_error (update_nth i pc' (callers s)) j = Some x ->
                         close_progress c pcs t0 x w).
  { intros pc' w Hin Hnew j x Hj.
    destruct (Nat.eq_dec i j) as [<- | Hne].
    - rewrite (@nth_error_update_nth_eq _ pc' (callers s) i pc Hi) in Hj.
      inversion Hj; subst. exact Hnew.
    - rewrite nth_error_update_nth_neq in Hj by exact Hne.
      apply in_close_zero. apply (Hothers Hin j x); congruence. }
  assert (Hsame : forall pc',
             close_progress c pcs t0 pc' (world s) ->
             forall j x, nth_error (update_nth i pc' (callers s)) j = Some x ->
                         close_progress c pcs t0 x (world s)).
  { intros pc' Hnew j x Hj.
    destruct (Nat.eq_dec i j) as [<- | Hne].
    - rewrite (@nth_error_update_nth_eq _ pc' (callers s) i pc Hi) in Hj.
      inversion Hj; subst. exact Hnew.
    - rewrite nth_error_update_nth_neq in Hj by exact Hne.
      apply (Hprog j x Hj). }
  assert (Hone : in_close pc = 1 -> closed (shared s) <> 0%Z).
  { intros Hin Hzero.
    pose proof (@total_nth_le in_close (callers s) i pc Hi) as Hle.
    rewrite (inv_winner Inv), Hzero in Hle. simpl in Hle. lia. }
  assert (Hkeep : progress_inv c pcs t0 s) by (repeat split; assumption).
  destruct pc as [| | [| pc0 rest] | | | | r0 | r0]; simpl;
    try exact Hkeep.
  - destruct (Z.eqb_spec (closed (shared s)) 0) as [Hzero | Hzero].
    + split; [exact Hp |]. split; [simpl; intros; discriminate |].
      apply Hsame. simpl. exact (Hz Hzero).
    + split; [exact Hp |]. split; [exact Hz |]. apply Hsame. exact I.
  - split; [exact Hp |]. split; [exact Hz |].
    apply Hsame. simpl in *. exists []. rewrite Hp. simpl.
    rewrite app_nil_r. auto.
  - split; [exact Hp |]. split; [exact Hz |].
    apply Hsame. simpl in *. destruct Hmine as (done & Hd & Hw).
    rewrite app_nil_r in Hd. subst done. exact Hw.
  - split; [exact Hp |].
    split; [intros Hzero; exfalso; exact (Hone eq_refl Hzero) |].
    apply (Hmoved (AtAsyncClose rest)); [reflexivity |].
    simpl in *. destruct Hmine as (done & Hd & Hw).
    exists (done ++ [pc0]). rewrite Hw, Hd, map_app, <- !app_assoc.
    simpl. auto.
  - destruct (Z.eqb_spec (wg (shared s)) 0); [| exact Hkeep].
    split; [exact Hp |]. split; [exact Hz |]. apply Hsame. exact Hmine.
  - rewrite (inv_session Inv).
    split; [exact Hp |].
    split; [intros Hzero; exfalso; exact (Hone eq_refl Hzero) |].
    apply (Hmoved (Returned (SessionClose env (world s) c)));
      [reflexivity |].
    simpl in *. rewrite Hmine. reflexivity.
Qed.

Lemma progress_inv_run (env : Adapter) (c : Session)
      (pcs : list PartitionConsumer) (t0 : trace) (n : nat)
      (sched : list action) :
  forall s, close_inv env c t0 n s -> progress_inv c pcs t0 s ->
            progress_inv c pcs t0 (run env sched s).
Proof.
  unfold run. induction sched as [| a rest IH]; intros s Inv P; simpl;
    [exact P |].
  apply IH.
  - apply close_inv_step. exact Inv.
  - apply (progress_inv_step env c pcs t0 n a s Inv P).
Qed.

(** Under every schedule of [n >= 1] callers of [Close] on a consumer
    that is open: the partition consumers that have been signalled form
    a prefix of the ones the consumer holds, so none is signalled twice
    or out of order; and once every caller has returned, the trace is
    the one of a single uninterrupted call: every partition consumer
    signalled, in order, then the session closed, the session close
    having been asked after the last signal. *)
Theorem Close_concurrent_trace
        (env : Adapter) (n : nat) (kc : consumer) (t : trace) (c : Session)
        (sched : list action) :
  closed kc = 0%Z -> getConsumer kc = Some c -> (0 <= wg kc)%Z -> 1 <= n ->
  let s := run env sched (close_calls n kc t) in
  let pcs := getPartitionConsumers kc in
  (exists done rest,
      pcs = done ++ rest
      /\ async_closes (world s) = async_closes t ++ done)
  /\ if all_returned s
     then world s
          = (t ++ map EvAsyncClose pcs)
            ++ [EvSessionClose c
                  (SessionClose env (t ++ map EvAsyncClose pcs) c)]
     else True.
Proof.
  intros Hcl Hc Hw Hn s pcs.
  assert (Inv : close_inv env c t n s).
  { apply close_inv_run, close_inv_init; assumption. }
  assert (P : progress_inv c pcs t s).
  { apply (progress_inv_run env c pcs t n sched).
    - apply close_inv_init; assumption.
    - unfold progress_inv, close_calls; simpl. repeat split; auto.
      intros i pc Hi. apply nth_error_In, repeat_spec in Hi. subst pc.
      exact I. }
  destruct P as (Hp & Hz & Hprog). split.
  - destruct (inv_flag Inv) as [Hzero | Hone].
    + exists [], pcs. rewrite (Hz Hzero), app_nil_r. auto.
    + pose proof (inv_winner Inv) as Hwin. rewrite Hone in Hwin.
      simpl in Hwin.
      destruct (@total_one in_close (callers s)) as (i & x & Hi & Hx & _);
        [intros []; simpl; lia | exact Hwin |].
      pose proof (Hprog i x Hi) as Hmine.
      destruct x as [| | rest | | | | r0 | r0]; simpl in Hx, Hmine;
        try discriminate.
      * exists [], pcs. rewrite Hmine, app_nil_r. auto.
      * destruct Hmine as (done & Hd & Hwd). exists done, rest.
        rewrite Hwd, async_closes_app, async_closes_map. auto.
      * exists pcs, []. rewrite Hmine, async_closes_app, async_closes_map,
          app_nil_r. auto.
      * exists pcs, []. rewrite Hmine, async_closes_app, async_closes_map,
          app_nil_r. auto.
      * exists pcs, []. rewrite Hmine, !async_closes_app, async_closes_map,
          app_nil_r. simpl. rewrite app_nil_r. auto.
      * exfalso. exact (@inv_no_panic env c t n s Inv i r0 Hi).
  - destruct (all_returned s) eqn:Hall; [| exact I].
    destruct (@complete_run env c t n s Inv Hn Hall)
      as (_ & i & r & t' & Hi & Hworld & Hr & _).
    pose proof (Hprog i (Returned r) Hi) as Hmine. simpl in Hmine.
    rewrite Hmine in Hworld. apply app_inj_tail in Hworld.
    destruct Hworld as [Ht' _]. subst t'. rewrite Hmine, Hr. reflexivity.
Qed.

Lemma Close_concurrent_trace_witness :
  let kc := snd (fst (Consume steady [] (fst (built steady))
                        (snd (built steady)))) in
  let t := snd (Consume steady [] (fst (built steady)) (snd (built steady))) in
  let s := run steady
             [Caller 1; Caller 0; Caller 1; Caller 1; ConsumeReturns;
              Caller 1; Caller 1; Caller 1; Caller 1]
             (close_calls 2 kc t) in
  all_returned s = true
  /\ async_closes (world s)
     = [handle 0 (fst (built steady)) 0; handle 0 (fst (built steady)) 1]
  /\ session_closes (world s) = [0].
Proof.
  cbv zeta.
  pose proof (Close_concurrent_trace steady 2
                (snd (fst (Consume steady [] (fst (built steady))
                             (snd (built steady)))))
                (snd (Consume steady [] (fst (built steady))
                        (snd (built steady))))
                0
                [Caller 1; Caller 0; Caller 1; Caller 1; ConsumeReturns;
                 Caller 1; Caller 1; Caller 1; Caller 1]
                eq_refl eq_refl) as H.
  cbv zeta in H.
  destruct H as (_ & H); [vm_compute; discriminate | repeat constructor |].
  split; [reflexivity |].
  assert (Hall : all_returned
                   (run steady
                      [Caller 1; Caller 0; Caller 1; Caller 1; ConsumeReturns;
                       Caller 1; Caller 1; Caller 1; Caller 1]
                      (close_calls 2
                         (snd (fst (Consume steady [] (fst (built steady))
                                      (snd (built steady)))))
                         (snd (Consume steady [] (fst (built steady))
                                 (snd (built steady)))))) = true)
    by reflexivity.
  rewrite Hall in H. rewrite H. split; reflexivity.
Defined.

(** ** consumer.go: [Close] waits for [Consume] *)





End laws.
